(** * Noughts and crosses: board evaluator and minimax move selector

    A shallow embedding of [lib/game.ts] (the evaluator [getWinner] /
    [isDraw] and the move selector [minimax] / [getBestMove]) together
    with the properties of the specification that concern them.

    Modelling conventions
    - A JS array of cells is a [list Cell]; [board[i]] is stdpp's
      [board !! i : option Cell], whose outer [None] is JS [undefined]
      (index out of range), [Some None] is [null] and [Some (Some m)]
      is the mark [m].
    - [board.slice()] followed by [next[idx] = m] is [<[idx:=Some m]> board].
      The source only ever writes at an index taken from [emptyCells],
      hence in range, where stdpp's insert and the JS assignment agree.
    - Scores are JS numbers; the only values that occur are small
      integers and the two infinities, hence [Score].
    - [Math.random()] is an argument of [getBestMove]: a rational number
      [rnd], which the theorems take in [0, 1). The product with the
      array length is exact here and rounded in a double; either way the
      floor is an index of the array, and every index is drawn by some
      [rnd] ([randomIndex_onto]), so that a statement for all [rnd]
      covers every outcome of the tie-break.
    - The recursion of [minimax] is not structural; [minimax_fuel] is the
      source text with a recursion budget, and [minimax] runs it with a
      budget which is proved to be always sufficient. *)

From Stdlib Require Import ZArith QArith Qround Lia Sorted.
From stdpp Require Import base list strings gmap.

Local Open Scope Z_scope.
Local Open Scope nat_scope.

(** ** Data model *)

(** [type Mark = 'X' | 'O'] *)
Inductive Mark : Type := X | O.

(** [type Cell = Mark | null] *)
Abbreviation Cell := (option Mark) (only parsing).

(** [Cell[]] *)
Abbreviation Board := (list (option Mark)) (only parsing).

#[global] Instance Mark_eq_dec : EqDecision Mark.
Proof. solve_decision. Defined.

(** The other of the two marks. *)
Definition opponent (m : Mark) : Mark :=
  match m with X => O | O => X end.

(** A line is an index triple; the source holds each as a three-element
    array which [getWinner] destructures as [[a, b, c]]. *)
Abbreviation Line := (nat * nat * nat)%type (only parsing).

Definition LINES : list Line :=
  [ (0, 1, 2);
    (3, 4, 5);
    (6, 7, 8);
    (0, 3, 6);
    (1, 4, 7);
    (2, 5, 8);
    (0, 4, 8);
    (2, 4, 6) ].

(** The array [[a, b, c]] returned as the winning line. *)
Definition triple (l : Line) : list nat :=
  let '(a, b, c) := l in [a; b; c].

(** [{ winner: Mark | null; line: number[] | null }] *)
Record WinResult : Type := mkWinResult {
  winner : option Mark;
  line : option (list nat)
}.

(** JS values read from a board: [undefined], [null] or a mark. *)
Abbreviation JsCell := (option (option Mark)) (only parsing).

(** [v === w] on such values. *)
Definition strictEq (v w : JsCell) : bool := bool_decide (v = w).

(** [c !== null] *)
Definition notNull (c : Cell) : bool :=
  match c with None => false | Some _ => true end.

(** [board[i] === null] *)
Definition isNullAt (board : Board) (i : nat) : Prop :=
  board !! i = Some None.

#[global] Instance isNullAt_dec board i : Decision (isNullAt board i).
Proof. unfold isNullAt. apply _. Defined.

(** ** Board evaluator *)

(** The body of the [for (const line of LINES)] loop of [getWinner],
    run over the remaining [lines]. *)
Fixpoint getWinner_loop (board : Board) (lines : list Line) : WinResult :=
  match lines with
  | [] => mkWinResult None None
  | (a, b, c) :: rest =>
      match board !! a with
      | Some (Some v) =>
          if strictEq (Some (Some v)) (board !! b)
             && strictEq (Some (Some v)) (board !! c)
          then mkWinResult (Some v) (Some [a; b; c])
          else getWinner_loop board rest
      | _ => getWinner_loop board rest
      end
  end.

Definition getWinner (board : Board) : WinResult :=
  getWinner_loop board LINES.

(** [board.every((c) => c !== null)] *)
Definition everyNotNull (board : Board) : bool := forallb notNull board.

Definition isDraw (board : Board) : bool :=
  everyNotNull board && bool_decide (winner (getWinner board) = None).

(** ** Move selector *)

(** The indices [i = 0 .. board.length - 1] with [board[i] === null],
    in increasing order. *)
Definition emptyCells (board : Board) : list nat :=
  filter (isNullAt board) (seq 0 (length board)).

(** JS numbers as they occur in the search. *)
Inductive Score : Type :=
| NegInf
| Fin (z : Z)
| PosInf.

#[global] Instance Score_eq_dec : EqDecision Score.
Proof. solve_decision. Defined.

(** [a <= b] on scores, as a boolean. *)
Definition score_leb (a b : Score) : bool :=
  match a, b with
  | NegInf, _ => true
  | _, PosInf => true
  | Fin x, Fin y => (x <=? y)%Z
  | _, _ => false
  end.

(** [a > b] *)
Definition score_gtb (a b : Score) : bool := negb (score_leb a b).

(** [a === b] *)
Definition score_eqb (a b : Score) : bool := bool_decide (a = b).

(** [Math.max(a, b)] *)
Definition score_max (a b : Score) : Score :=
  if score_leb a b then b else a.

(** [Math.min(a, b)] *)
Definition score_min (a b : Score) : Score :=
  if score_leb a b then a else b.

(** [next = board.slice(); next[idx] = m] *)
Definition place (board : Board) (idx : nat) (m : Mark) : Board :=
  <[idx := Some m]> board.

(** [for (const idx of empties) best = op(best, call(idx))], where a
    call may have exhausted the recursion budget. *)
Fixpoint loopBest (op : Score -> Score -> Score)
  (call : nat -> option Score) (empties : list nat) (best : Score)
  : option Score :=
  match empties with
  | [] => Some best
  | idx :: rest =>
      match call idx with
      | Some s => loopBest op call rest (op best s)
      | None => None
      end
  end.

(** The same loop when every call returns. *)
Definition loopTotal (op : Score -> Score -> Score) (call : nat -> Score)
  (empties : list nat) (best : Score) : Score :=
  fold_left (fun b idx => op b (call idx)) empties best.

(** [minimax] with a recursion budget; [None] means the budget ran out. *)
Fixpoint minimax_fuel (fuel : nat) (board : Board) (isAiTurn : bool)
  (ai human : Mark) (depth : Z) : option Score :=
  match fuel with
  | 0 => None
  | S fuel' =>
      let w := winner (getWinner board) in
      if bool_decide (w = Some ai) then Some (Fin (10 - depth))
      else if bool_decide (w = Some human) then Some (Fin (depth - 10))
      else if everyNotNull board then Some (Fin 0)
      else
        let empties := emptyCells board in
        if isAiTurn then
          loopBest score_max
            (fun idx =>
               minimax_fuel fuel' (place board idx ai) false ai human (depth + 1))
            empties NegInf
        else
          loopBest score_min
            (fun idx =>
               minimax_fuel fuel' (place board idx human) true ai human (depth + 1))
            empties PosInf
  end.

(** The recursion budget [minimax] runs with: one level per empty cell,
    and one for the terminal position. *)
Definition budget (board : Board) : nat := S (length (emptyCells board)).

(** [minimax(board, isAiTurn, ai, human, depth)]. The default is never
    taken, see [minimax_fuel_budget]. *)
Definition minimax (board : Board) (isAiTurn : bool) (ai human : Mark)
  (depth : Z) : Score :=
  default NegInf (minimax_fuel (budget board) board isAiTurn ai human depth).

(** The score [getBestMove] gives to the root move [idx]. *)
Definition rootScore (board : Board) (ai human : Mark) (idx : nat) : Score :=
  minimax (place board idx ai) false ai human 0.

(** One iteration of the root loop of [getBestMove] on the state
    [(bestScore, bestMoves)]. *)
Definition bestStep (board : Board) (ai human : Mark)
  (st : Score * list nat) (idx : nat) : Score * list nat :=
  let '(bestScore, bestMoves) := st in
  let score := rootScore board ai human idx in
  if score_gtb score bestScore then (score, [idx])
  else if score_eqb score bestScore then (bestScore, bestMoves ++ [idx])
  else (bestScore, bestMoves).

(** The state [(bestScore, bestMoves)] after the root loop. *)
Definition bestState (board : Board) (ai human : Mark) : Score * list nat :=
  fold_left (bestStep board ai human) (emptyCells board) (NegInf, []).

Definition bestMoves (board : Board) (ai human : Mark) : list nat :=
  snd (bestState board ai human).

(** What [getBestMove] returns: [null], a number, or [undefined] when
    the final array read is out of range. *)
Inductive Move : Type :=
| MoveNull
| MoveUndefined
| MoveIndex (idx : nat).

(** [Math.floor(rnd * len)] *)
Definition randomIndex (rnd : Q) (len : nat) : Z :=
  Qfloor (rnd * inject_Z (Z.of_nat len)).

(** [moves[k]] for an integral JS number [k]. *)
Definition readMove (moves : list nat) (k : Z) : Move :=
  if (k <? 0)%Z then MoveUndefined
  else match moves !! Z.to_nat k with
       | Some idx => MoveIndex idx
       | None => MoveUndefined
       end.

Definition getBestMove (board : Board) (ai human : Mark) (rnd : Q) : Move :=
  let empties := emptyCells board in
  if length empties =? 0 then MoveNull
  else
    let moves := bestMoves board ai human in
    readMove moves (randomIndex rnd (length moves)).

(** ** Vocabulary of the specification *)

(** The three cells of [l] all hold the mark [m]: a completed line. *)
Definition completes (board : Board) (m : Mark) (l : Line) : Prop :=
  let '(a, b, c) := l in
  board !! a = Some (Some m) ∧ board !! b = Some (Some m)
  ∧ board !! c = Some (Some m).

#[global] Instance completes_dec board m l : Decision (completes board m l).
Proof. destruct l as [[a b] c]. unfold completes. apply _. Defined.

(** No mark completes the line. *)
Definition unmarked (board : Board) (l : Line) : Prop :=
  ∀ m, ¬ completes board m l.

#[global] Instance unmarked_dec board l : Decision (unmarked board l).
Proof.
  destruct (decide (completes board X l)) as [HX|HX];
    [right; intros H; exact (H X HX)|].
  destruct (decide (completes board O l)) as [HO|HO];
    [right; intros H; exact (H O HO)|].
  left. intros []; assumption.
Defined.

(** The mark [m] has a completed line on the board. *)
Definition hasLine (board : Board) (m : Mark) : Prop :=
  Exists (completes board m) LINES.

#[global] Instance hasLine_dec board m : Decision (hasLine board m).
Proof. unfold hasLine. apply _. Defined.

(** Every cell is occupied. *)
Definition full (board : Board) : Prop :=
  Forall (fun c : Cell => c ≠ None) board.

(** The cell [i] is empty and placing [m] there completes a line of [m]:
    an immediately winning move. *)
Definition winsAt (board : Board) (m : Mark) (i : nat) : Prop :=
  board !! i = Some None ∧ hasLine (place board i m) m.

#[global] Instance winsAt_dec board m i : Decision (winsAt board m i).
Proof. unfold winsAt. apply _. Defined.

(** The mark [m] has an immediately winning move. *)
Definition threatens (board : Board) (m : Mark) : Prop :=
  Exists (winsAt board m) (seq 0 (length board)).

#[global] Instance threatens_dec board m : Decision (threatens board m).
Proof. unfold threatens. apply _. Defined.

(** The AI move [idx] blocks: the cell is empty, and once the AI mark is
    there the human mark has no immediately winning move. *)
Definition blocks (board : Board) (ai human : Mark) (idx : nat) : Prop :=
  board !! idx = Some None ∧ ¬ threatens (place board idx ai) human.

#[global] Instance blocks_dec board ai human idx :
  Decision (blocks board ai human idx).
Proof. unfold blocks. apply _. Defined.

(** ** The game component

    The state and the handlers of [App] that drive a round: the hooks
    [board], [turn], [result], [winningLine], [promoCode], [difficulty],
    [telegramStatus], [copied], [endModalOpen], [failRetriesLeft] and the
    ref [telegramSentRef] are the fields of [State], and each handler is
    a function on the state as of the render it runs in. The Telegram
    link dialog ([tgModalOpen], [tgLink]), which none of these handlers
    reads or writes, the writes to [localStorage] and the effects that
    send the Telegram message are left out. [generatePromoCode()] is
    outside the sources; the code it returns is an argument.

    The events below are those that write the fields of the round:
    [board], [turn], [result], [winningLine], [promoCode], [difficulty]
    and [failRetriesLeft]. The other four fields are also written by
    handlers that are not events here (the effect that opens the end
    dialog and its close button, the Telegram effect, [copyPromo]), so
    what is proved along a run speaks of the fields of the round
    only. *)

Module App.

Definition HUMAN : Mark := X.
Definition AI : Mark := O.

(** [type Turn = 'human' | 'ai'] *)
Inductive Turn : Type := HumanTurn | AiTurn.

(** [type Result = 'playing' | 'win' | 'loss' | 'draw'] *)
Inductive Result : Type := Playing | Win | Loss | Draw.

(** [type TelegramStatus = 'idle' | 'sending' | 'sent' | 'error'] *)
Inductive TelegramStatus : Type := Idle | Sending | Sent | Error.

(** [type Difficulty = 'soft' | 'balanced' | 'smart'] *)
Inductive Difficulty : Type := Soft | Balanced | Smart.

#[global] Instance Turn_eq_dec : EqDecision Turn.
Proof. solve_decision. Defined.

#[global] Instance Result_eq_dec : EqDecision Result.
Proof. solve_decision. Defined.

#[global] Instance Difficulty_eq_dec : EqDecision Difficulty.
Proof. solve_decision. Defined.

Definition FAIL_RETRIES_MAX : Z := 3.

Record State : Type := mkState {
  board : list (option Mark);
  turn : Turn;
  result : Result;
  winningLine : option (list nat);
  promoCode : option string;
  difficulty : Difficulty;
  telegramStatus : TelegramStatus;
  copied : bool;
  telegramSent : bool;
  endModalOpen : bool;
  failRetriesLeft : Z
}.

(** The state setters. *)
Definition setBoard (v : list (option Mark)) (st : State) : State :=
  mkState v (turn st) (result st) (winningLine st) (promoCode st)
    (difficulty st) (telegramStatus st) (copied st) (telegramSent st)
    (endModalOpen st) (failRetriesLeft st).

Definition setTurn (v : Turn) (st : State) : State :=
  mkState (board st) v (result st) (winningLine st) (promoCode st)
    (difficulty st) (telegramStatus st) (copied st) (telegramSent st)
    (endModalOpen st) (failRetriesLeft st).

Definition setResult (v : Result) (st : State) : State :=
  mkState (board st) (turn st) v (winningLine st) (promoCode st)
    (difficulty st) (telegramStatus st) (copied st) (telegramSent st)
    (endModalOpen st) (failRetriesLeft st).

Definition setWinningLine (v : option (list nat)) (st : State) : State :=
  mkState (board st) (turn st) (result st) v (promoCode st) (difficulty
    st) (telegramStatus st) (copied st) (telegramSent st) (endModalOpen
    st) (failRetriesLeft st).

Definition setPromoCode (v : option string) (st : State) : State :=
  mkState (board st) (turn st) (result st) (winningLine st) v (difficulty
    st) (telegramStatus st) (copied st) (telegramSent st) (endModalOpen
    st) (failRetriesLeft st).

Definition setDifficulty (v : Difficulty) (st : State) : State :=
  mkState (board st) (turn st) (result st) (winningLine st) (promoCode st)
    v (telegramStatus st) (copied st) (telegramSent st) (endModalOpen st)
    (failRetriesLeft st).

Definition setTelegramStatus (v : TelegramStatus) (st : State) : State :=
  mkState (board st) (turn st) (result st) (winningLine st) (promoCode st)
    (difficulty st) v (copied st) (telegramSent st) (endModalOpen st)
    (failRetriesLeft st).

Definition setCopied (v : bool) (st : State) : State :=
  mkState (board st) (turn st) (result st) (winningLine st) (promoCode st)
    (difficulty st) (telegramStatus st) v (telegramSent st) (endModalOpen
    st) (failRetriesLeft st).

Definition setTelegramSent (v : bool) (st : State) : State :=
  mkState (board st) (turn st) (result st) (winningLine st) (promoCode st)
    (difficulty st) (telegramStatus st) (copied st) v (endModalOpen st)
    (failRetriesLeft st).

Definition setEndModalOpen (v : bool) (st : State) : State :=
  mkState (board st) (turn st) (result st) (winningLine st) (promoCode st)
    (difficulty st) (telegramStatus st) (copied st) (telegramSent st) v
    (failRetriesLeft st).

Definition setFailRetriesLeft (v : Z) (st : State) : State :=
  mkState (board st) (turn st) (result st) (winningLine st) (promoCode st)
    (difficulty st) (telegramStatus st) (copied st) (telegramSent st)
    (endModalOpen st) v.

(** The state of the first render: [Array(9).fill(null)], ['human'],
    ['playing'], no line, no code, ['balanced'], three retries. *)
Definition initial : State :=
  mkState (replicate 9 None) HumanTurn Playing None None Balanced Idle
    false false false FAIL_RETRIES_MAX.

Definition resetRound (st : State) : State :=
  setEndModalOpen false
    (setTelegramSent false
       (setCopied false
          (setTelegramStatus Idle
             (setPromoCode None
                (setWinningLine None
                   (setResult Playing
                      (setTurn HumanTurn
                         (setBoard (replicate 9 None) st)))))))).

(** [Math.max(0, Math.min(FAIL_RETRIES_MAX, next))], stored. *)
Definition setFailRetriesLeftPersist (next : Z) (st : State) : State :=
  setFailRetriesLeft (Z.max 0 (Z.min FAIL_RETRIES_MAX next)) st.

(** [result === 'loss' || result === 'draw'] *)
Definition failed (st : State) : bool :=
  bool_decide (result st = Loss) || bool_decide (result st = Draw).

Definition onTryAgain (st : State) : State :=
  if failed st then
    if (failRetriesLeft st <=? 0)%Z then st
    else resetRound (setFailRetriesLeftPersist (failRetriesLeft st - 1) st)
  else resetRound st.

Definition onResetClick (st : State) : State :=
  if failed st then onTryAgain st else resetRound st.

(** The retry part of the mount effect; [parsed] is what
    [Number.parseInt] made of the stored text, [None] for [NaN] and for
    no stored text. *)
Definition restoreRetries (parsed : option Z) (st : State) : State :=
  match parsed with
  | Some n =>
      if (0 <=? n)%Z && (n <=? FAIL_RETRIES_MAX)%Z
      then setFailRetriesLeft n st
      else setFailRetriesLeft FAIL_RETRIES_MAX st
  | None => setFailRetriesLeft FAIL_RETRIES_MAX st
  end.

(** [finalizeIfEnded(nextBoard)]: the returned flag and the state after
    its setters; [code] is the result of [generatePromoCode()], which
    is only called on a human win. *)
Definition finalizeIfEnded (code : string) (nextBoard : list (option Mark))
  (st : State) : bool * State :=
  let r := getWinner nextBoard in
  if bool_decide (winner r = Some HUMAN) then
    (true, setResult Win (setPromoCode (Some code) (setWinningLine (line r) st)))
  else if bool_decide (winner r = Some AI) then
    (true, setResult Loss (setWinningLine (line r) st))
  else if isDraw nextBoard then (true, setResult Draw st)
  else (false, st).

(** [result !== 'playing' || turn !== 'human'] *)
Definition lockBoard (st : State) : bool :=
  negb (bool_decide (result st = Playing))
  || negb (bool_decide (turn st = HumanTurn)).

(** [onHumanMove(index)]. For an index outside the board [board[index]]
    is [undefined], which is [!== null], so the handler returns. *)
Definition onHumanMove (code : string) (index : nat) (st : State) : State :=
  if lockBoard st then st
  else if bool_decide (board st !! index = Some None) then
    let next := place (board st) index HUMAN in
    let '(ended, st1) := finalizeIfEnded code next (setBoard next st) in
    if ended then st1 else setTurn AiTurn st1
  else st.

(** The doubles [0.55], [0.18] and [0], as the rationals they are. *)
Definition mistakeChance (d : Difficulty) : Q :=
  match d with
  | Soft => 2476979795053773 # 4503599627370496
  | Balanced => 3242591731706757 # 18014398509481984
  | Smart => 0
  end.

(** [chooseAiMove(nextBoard)] at the difficulty [d]. Its first loop is
    the loop of [emptyCells]. [rMistake] is the value of the call of
    [Math.random()] in the mistake test, [rPick] that of the call which
    picks the index, in either branch. *)
Definition chooseAiMove (d : Difficulty) (nextBoard : list (option Mark))
  (rMistake rPick : Q) : Move :=
  let empties := emptyCells nextBoard in
  if length empties =? 0 then MoveNull
  else
    let chance := mistakeChance d in
    if Qlt_le_dec 0 chance then
      if Qlt_le_dec rMistake chance
      then readMove empties (randomIndex rPick (length empties))
      else getBestMove nextBoard AI HUMAN rPick
    else getBestMove nextBoard AI HUMAN rPick.

(** [next = prev.slice(); next[move] = AI]; a [move] that is
    [undefined] writes no cell. *)
Definition aiNext (prev : list (option Mark)) (move : Move)
  : list (option Mark) :=
  match move with
  | MoveIndex idx => place prev idx AI
  | _ => prev
  end.

(** The timeout callback of the AI effect, which only runs when the
    render has [result === 'playing'] and [turn === 'ai']. *)
Definition aiTimeout (code : string) (rMistake rPick : Q) (st : State) : State :=
  if negb (bool_decide (result st = Playing)) then st
  else if negb (bool_decide (turn st = AiTurn)) then st
  else
    match chooseAiMove (difficulty st) (board st) rMistake rPick with
    | MoveNull => st
    | move =>
        let next := aiNext (board st) move in
        let '(ended, st1) := finalizeIfEnded code next st in
        setBoard next (if ended then st1 else setTurn HumanTurn st1)
    end.

(** What can happen to the component. *)
Inductive Event : Type :=
| HumanMove (code : string) (index : nat)
| AiTimeout (code : string) (rMistake rPick : Q)
| TryAgain
| ResetClick
| SetDifficulty (d : Difficulty)
| RestoreRetries (parsed : option Z).

Definition handle (e : Event) (st : State) : State :=
  match e with
  | HumanMove code index => onHumanMove code index st
  | AiTimeout code rMistake rPick => aiTimeout code rMistake rPick st
  | TryAgain => onTryAgain st
  | ResetClick => onResetClick st
  | SetDifficulty d => setDifficulty d st
  | RestoreRetries parsed => restoreRetries parsed st
  end.

(** The state after the events [es], in order. *)
Definition run (es : list Event) (st : State) : State :=
  fold_left (fun s e => handle e s) es st.

(** The values of [Math.random()] in the event lie in [0, 1). *)
Definition drawsValid (e : Event) : Prop :=
  match e with
  | AiTimeout _ rMistake rPick =>
      ((0 <= rMistake)%Q ∧ (rMistake < 1)%Q) ∧ (0 <= rPick)%Q ∧ (rPick < 1)%Q
  | _ => True
  end.

(** The event leaves the difficulty alone. *)
Definition keepsDifficulty (e : Event) : Prop :=
  match e with SetDifficulty _ => False | _ => True end.

(** The number of cells that hold the mark [m]. *)
Definition countMark (m : Mark) (cells : list (option Mark)) : nat :=
  length (filter (λ c, c = Some m) cells).

(** What the state records about the round agrees with the evaluator. *)
Definition consistent (st : State) : Prop :=
  match result st with
  | Playing =>
      winner (getWinner (board st)) = None ∧ emptyCells (board st) ≠ []
      ∧ winningLine st = None ∧ promoCode st = None
  | Win =>
      winner (getWinner (board st)) = Some HUMAN
      ∧ winningLine st = line (getWinner (board st))
      ∧ is_Some (promoCode st)
  | Loss =>
      winner (getWinner (board st)) = Some AI
      ∧ winningLine st = line (getWinner (board st))
      ∧ promoCode st = None
  | Draw =>
      isDraw (board st) = true
      ∧ winningLine st = None ∧ promoCode st = None
  end.

(** How many more marks the human has than the AI: one while the AI is
    to move, and one after a round that the human's move ended. *)
Definition lead (st : State) : nat :=
  match result st, turn st with
  | Playing, AiTurn => 1
  | Playing, HumanTurn => 0
  | _, HumanTurn => 1
  | _, AiTurn => 0
  end.

(** What holds of every state the component reaches. *)
Definition invariant (st : State) : Prop :=
  length (board st) = 9
  ∧ (0 <= failRetriesLeft st <= FAIL_RETRIES_MAX)%Z
  ∧ consistent st
  ∧ countMark HUMAN (board st) = countMark AI (board st) + lead st.

(** The event is a move on the board, by the mark it returns. *)
Definition mover (e : Event) : option Mark :=
  match e with
  | HumanMove _ _ => Some HUMAN
  | AiTimeout _ _ _ => Some AI
  | _ => None
  end.

(** The event starts a new round. *)
Definition restarts (e : Event) : Prop :=
  match e with TryAgain | ResetClick => True | _ => False end.

(** The event is the mount effect that reloads the retries. *)
Definition reloads (e : Event) : Prop :=
  match e with RestoreRetries _ => True | _ => False end.

(** Whoever is to move on [cells] ([aiToMove]), the human mark never
    gets a line in at most [fuel] further moves when the AI answers by
    any move of [bestMoves]. *)
Fixpoint holds (fuel : nat) (aiToMove : bool) (cells : list (option Mark))
  : bool :=
  match fuel with
  | 0 => false
  | S fuel' =>
      forallb
        (fun idx =>
           let next := place cells idx (if aiToMove then AI else HUMAN) in
           let w := winner (getWinner next) in
           if bool_decide (w = Some HUMAN) then false
           else if bool_decide (w = Some AI) then true
           else if isDraw next then true
           else holds fuel' (negb aiToMove) next)
        (if aiToMove then bestMoves cells AI HUMAN else emptyCells cells)
  end.

(** The round is not won, the difficulty is ['smart'], and while the
    round is in play the human cannot win from its position. *)
Definition unbeaten (st : State) : Prop :=
  result st ≠ Win ∧ difficulty st = Smart
  ∧ (result st = Playing →
     ∃ fuel, holds fuel (bool_decide (turn st = AiTurn)) (board st) = true).

End App.

(** ** The Telegram link server

    The link table of [server/index.js] and the functions that keep it:
    [cleanupLinks], [extractChatId], [extractText] and
    [pollTelegramUpdates]. [linkMap] is a [gmap] from codes to records,
    [Date.now()] is an argument, and so is the outcome of the request
    to Telegram. An update is read as Telegram sends it: an optional
    numeric [update_id] and up to four messages, each with an optional
    [chat.id] and an optional [text]. The regular expression of
    [extractStartCode] and the conversion [String(chatId)] are
    arguments: what is proved holds whatever they compute. *)

Module Server.

(** [1000 * 60 * 60], one hour. *)
Definition LINK_TTL_MS : Z := 1000 * 60 * 60.

(** A record of [linkMap]: [{ createdAt, chatId }]. *)
Record Link : Type := mkLink {
  createdAt : Z;
  chatId : option string
}.

(** [now - rec.createdAt > LINK_TTL_MS]. A record is an object, so the
    other disjunct [!rec] of the source is false. *)
Definition expired (now : Z) (rec : Link) : Prop :=
  (now - createdAt rec > LINK_TTL_MS)%Z.

#[global] Instance expired_dec now rec : Decision (expired now rec).
Proof. unfold expired. apply _. Defined.

(** [cleanupLinks()] at the time [now]: the loop over the entries of
    [linkMap], deleting from [linkMap]. *)
Definition cleanupLinks (now : Z) (linkMap : gmap string Link)
  : gmap string Link :=
  map_fold
    (fun code rec m => if decide (expired now rec) then delete code m else m)
    linkMap linkMap.

(** [message.chat?.id] and [message.text] of one message of an update. *)
Record Message : Type := mkMessage {
  chat_id : option Z;
  text : option string
}.

Record Update : Type := mkUpdate {
  update_id : option Z;
  message : option Message;
  edited_message : option Message;
  channel_post : option Message;
  edited_channel_post : option Message
}.

(** [a ?? b] *)
Definition orElse {A : Type} (a b : option A) : option A :=
  match a with Some x => Some x | None => b end.

Definition extractChatId (update : Update) : option Z :=
  orElse (message update ≫= chat_id)
    (orElse (edited_message update ≫= chat_id)
       (orElse (channel_post update ≫= chat_id)
          (edited_channel_post update ≫= chat_id))).

Definition extractText (update : Update) : string :=
  default ""%string
    (orElse (message update ≫= text)
       (orElse (edited_message update ≫= text)
          (orElse (channel_post update ≫= text)
             (edited_channel_post update ≫= text)))).

(** The module state that polling touches. *)
Record State : Type := mkState {
  updatesOffset : Z;
  lastPollAt : Z;
  linkMap : gmap string Link
}.

Section Polling.

(** [String(chatId)] and [extractStartCode(text)]. *)
Variable toString : Z -> string.
Variable extractStartCode : string -> option string.

(** The body of the loop over the updates of [pollTelegramUpdates].
    [upd.update_id + 1] is an addition of doubles in the source; it is
    the integer [n + 1] as long as [n] is an integer below 2^53 in
    magnitude, which is what a statement about the value of the offset
    has to assume. *)
Definition processUpdate (s : State) (upd : Update) : State :=
  let offset :=
    match update_id upd with
    | Some n => Z.max (updatesOffset s) (n + 1)
    | None => updatesOffset s
    end in
  let s1 := mkState offset (lastPollAt s) (linkMap s) in
  match extractChatId upd with
  | None => s1
  | Some chat =>
      match extractStartCode (extractText upd) with
      | None => s1
      | Some code =>
          if decide (code = ""%string) then s1
          else
            match linkMap s !! code with
            | None => s1
            | Some rec =>
                mkState offset (lastPollAt s)
                  (<[code := mkLink (createdAt rec) (Some (toString chat))]>
                     (linkMap s))
            end
      end
  end.

Definition processUpdates (updates : list Update) (s : State) : State :=
  fold_left processUpdate updates s.

(** [pollTelegramUpdates(token)]. [now] and [nowCleanup] are the values
    of [Date.now()] in the function and in its call of [cleanupLinks];
    [response] is the array [resp.data.result], or [None] when the
    request throws or does not answer with an array. *)
Definition pollTelegramUpdates (now nowCleanup : Z)
  (response : option (list Update)) (s : State) : State :=
  if (now - lastPollAt s <? 1200)%Z then s
  else
    let s1 :=
      mkState (updatesOffset s) now (cleanupLinks nowCleanup (linkMap s)) in
    match response with
    | None => s1
    | Some updates => processUpdates updates s1
    end.

(** The code and the chat that an update links, if it links any: it has
    a chat id and its text is a start command with a code. *)
Definition binding (upd : Update) : option (string * string) :=
  match extractChatId upd, extractStartCode (extractText upd) with
  | Some chat, Some code =>
      if decide (code = ""%string) then None else Some (code, toString chat)
  | _, _ => None
  end.

(** The chat of the last update of the batch that links [code]. *)
Definition lastChat (code : string) (updates : list Update) : option string :=
  last (omap (fun upd =>
                match binding upd with
                | Some (c, chat) => if decide (c = code) then Some chat else None
                | None => None
                end) updates).

(** The record a code has after the batch, given the one it had: the
    chat of the last update that links the code, if there is one. *)
Definition relinked (code : string) (updates : list Update) (rec : Link)
  : Link :=
  mkLink (createdAt rec) (orElse (lastChat code updates) (chatId rec)).

End Polling.

End Server.

(** ** Sample runs *)

Definition boardBlock : Board :=
  [Some X; Some X; None; None; Some O; None; None; None; None].

Definition boardWin : Board :=
  [Some O; Some O; None; Some X; Some X; None; None; None; None].

Example getWinner_row :
  getWinner [Some X; Some X; Some X; None; Some O; Some O; None; None; None]
  = mkWinResult (Some X) (Some [0; 1; 2]).
Proof. reflexivity. Qed.

Example getWinner_empty : getWinner (replicate 9 None) = mkWinResult None None.
Proof. reflexivity. Qed.

Example emptyCells_boardBlock : emptyCells boardBlock = [2; 3; 5; 6; 7; 8].
Proof. reflexivity. Qed.

Example bestState_boardBlock : bestState boardBlock O X = (Fin 0, [2]).
Proof. vm_compute. reflexivity. Qed.

Example bestState_boardWin : bestState boardWin O X = (Fin 10, [2]).
Proof. vm_compute. reflexivity. Qed.

Example rootScores_boardBlock :
  map (rootScore boardBlock O X) (emptyCells boardBlock)
  = [Fin 0; Fin (-9); Fin (-9); Fin (-9); Fin (-9); Fin (-9)].
Proof. vm_compute. reflexivity. Qed.

(** ** The evaluator *)

Section Evaluator.

Variable board : Board.

#[local] Abbreviation unmarked := (unmarked board).

Lemma strictEq_true (v w : JsCell) : strictEq v w = true ↔ v = w.
Proof. unfold strictEq. apply bool_decide_eq_true. Qed.

Lemma getWinner_loop_hit l rest m :
  completes board m l →
  getWinner_loop board (l :: rest) = mkWinResult (Some m) (Some (triple l)).
Proof.
  destruct l as [[a b] c]. intros (Ha & Hb & Hc).
  cbn [getWinner_loop triple]. rewrite Ha, Hb, Hc. unfold strictEq.
  by rewrite bool_decide_eq_true_2.
Qed.

Lemma getWinner_loop_skip l rest :
  unmarked l → getWinner_loop board (l :: rest) = getWinner_loop board rest.
Proof.
  destruct l as [[a b] c]. intros Hno. cbn [getWinner_loop].
  destruct (board !! a) as [[v|]|] eqn:Ha; try done.
  destruct (strictEq _ (board !! b)) eqn:Hb; try done.
  destruct (strictEq _ (board !! c)) eqn:Hc; try done.
  apply strictEq_true in Hb, Hc. by destruct (Hno v).
Qed.

Lemma getWinner_loop_miss lines :
  Forall unmarked lines → getWinner_loop board lines = mkWinResult None None.
Proof.
  induction 1 as [|l rest Hl _ IH]; [done|].
  by rewrite getWinner_loop_skip.
Qed.

Lemma getWinner_loop_first pre l post m :
  Forall unmarked pre → completes board m l →
  getWinner_loop board (pre ++ l :: post)
  = mkWinResult (Some m) (Some (triple l)).
Proof.
  intros Hpre Hl. induction Hpre as [|l' pre Hl' _ IH]; simpl app.
  - by apply getWinner_loop_hit.
  - by rewrite getWinner_loop_skip.
Qed.

Lemma marked_or_unmarked l : {m | completes board m l} + {unmarked l}.
Proof.
  destruct (decide (completes board X l)) as [HX|HX]; [left; eauto|].
  destruct (decide (completes board O l)) as [HO|HO]; [left; eauto|].
  right. by intros [].
Qed.

(** The loop either misses every line, or stops at the first line that
    some mark completes. *)
Lemma getWinner_loop_cases lines :
  (Forall unmarked lines
   ∧ getWinner_loop board lines = mkWinResult None None)
  ∨ (∃ pre l post m,
        lines = pre ++ l :: post ∧ Forall unmarked pre ∧ completes board m l
        ∧ getWinner_loop board lines
          = mkWinResult (Some m) (Some (triple l))).
Proof.
  induction lines as [|l rest IH].
  - left. by split.
  - destruct (marked_or_unmarked l) as [[m Hm]|Hno].
    + right. exists [], l, rest, m. repeat split; [constructor|done|].
      by apply getWinner_loop_hit.
    + rewrite getWinner_loop_skip by done.
      destruct IH as [[Hall Hres]|(pre & l' & post & m & -> & Hpre & Hm & Hres)].
      * left. split; [by constructor|done].
      * right. exists (l :: pre), l', post, m.
        repeat split; [by constructor|done|done].
Qed.

Lemma completes_inj m m' l : completes board m l → completes board m' l → m = m'.
Proof. destruct l as [[a b] c]. intros (Ha & _) (Ha' & _). congruence. Qed.

(** The reported winner is [None] exactly when no mark has a line. *)
Lemma getWinner_none :
  winner (getWinner board) = None ↔ ∀ m, ¬ hasLine board m.
Proof.
  unfold getWinner, hasLine.
  destruct (getWinner_loop_cases LINES)
    as [[Hall Hres]|(pre & l & post & m & Heq & Hpre & Hm & Hres)];
    rewrite Hres; simpl.
  - split; [|done]. intros _ m Hex. apply Exists_exists in Hex as (l & Hin & Hl).
    rewrite Forall_forall in Hall. by apply (Hall l Hin m).
  - split; [done|]. intros Hno. destruct (Hno m).
    rewrite Heq. apply Exists_app. right. by constructor.
Qed.

(** A reported winner has a completed line, which is the reported one. *)
Lemma getWinner_some m t :
  getWinner board = mkWinResult (Some m) t →
  ∃ l, l ∈ LINES ∧ completes board m l ∧ t = Some (triple l).
Proof.
  unfold getWinner.
  destruct (getWinner_loop_cases LINES)
    as [[Hall Hres]|(pre & l & post & m' & Heq & Hpre & Hm & Hres)];
    rewrite Hres; intros [= <- <-].
  exists l. split; [|done]. rewrite Heq.
  apply elem_of_app. right. by left.
Qed.

Lemma getWinner_winner_hasLine m :
  winner (getWinner board) = Some m → hasLine board m.
Proof.
  destruct (getWinner board) as [w t] eqn:Hg. simpl. intros ->.
  apply getWinner_some in Hg as (l & Hin & Hl & _).
  apply Exists_exists. by exists l.
Qed.

(** With a line for [m] and none for the other mark, [m] is reported. *)
Lemma getWinner_sole m :
  hasLine board m → ¬ hasLine board (opponent m) →
  winner (getWinner board) = Some m.
Proof.
  intros Hm Hno. destruct (winner (getWinner board)) as [w|] eqn:Hw.
  - destruct (decide (w = m)) as [->|Hne]; [done|].
    apply getWinner_winner_hasLine in Hw.
    destruct Hno. by destruct w, m.
  - rewrite getWinner_none in Hw. by destruct (Hw m).
Qed.

Lemma everyNotNull_full : everyNotNull board = true ↔ full board.
Proof.
  unfold everyNotNull, full. induction board as [|c cells IH]; simpl.
  - split; [constructor|done].
  - rewrite andb_true_iff, Forall_cons, IH.
    destruct c; simpl; intuition congruence.
Qed.

End Evaluator.

(** ** Scores *)

Section Scores.

Lemma score_leb_refl a : score_leb a a = true.
Proof. destruct a; simpl; try done. apply Z.leb_refl. Qed.

Lemma score_leb_trans a b c :
  score_leb a b = true → score_leb b c = true → score_leb a c = true.
Proof.
  destruct a, b, c; simpl; try done.
  rewrite !Z.leb_le. lia.
Qed.

Lemma score_leb_antisym a b :
  score_leb a b = true → score_leb b a = true → a = b.
Proof.
  destruct a, b; simpl; try done.
  rewrite !Z.leb_le. intros. f_equal. lia.
Qed.

Lemma score_leb_total a b : score_leb a b = true ∨ score_leb b a = true.
Proof.
  destruct a, b; simpl; auto.
  rewrite !Z.leb_le. lia.
Qed.

Lemma score_leb_Fin x y : score_leb (Fin x) (Fin y) = true ↔ (x <= y)%Z.
Proof. simpl. apply Z.leb_le. Qed.

Lemma score_max_ge_l a b : score_leb a (score_max a b) = true.
Proof.
  unfold score_max. destruct (score_leb a b) eqn:E; [done|].
  apply score_leb_refl.
Qed.

Lemma score_max_ge_r a b : score_leb b (score_max a b) = true.
Proof.
  unfold score_max. destruct (score_leb a b) eqn:E.
  - apply score_leb_refl.
  - by destruct (score_leb_total a b) as [H|H]; [congruence|].
Qed.

Lemma score_min_le_l a b : score_leb (score_min a b) a = true.
Proof.
  unfold score_min. destruct (score_leb a b) eqn:E.
  - apply score_leb_refl.
  - by destruct (score_leb_total a b) as [H|H]; [congruence|].
Qed.

Lemma score_min_le_r a b : score_leb (score_min a b) b = true.
Proof.
  unfold score_min. destruct (score_leb a b) eqn:E; [done|].
  apply score_leb_refl.
Qed.

Lemma score_min_glb lo a b :
  score_leb lo a = true → score_leb lo b = true →
  score_leb lo (score_min a b) = true.
Proof. unfold score_min. by destruct (score_leb a b). Qed.

Lemma score_max_Fin x y : score_max (Fin x) (Fin y) = Fin (Z.max x y).
Proof.
  unfold score_max. simpl. destruct (Z.leb_spec x y); f_equal; lia.
Qed.

Lemma score_min_Fin x y : score_min (Fin x) (Fin y) = Fin (Z.min x y).
Proof.
  unfold score_min. simpl. destruct (Z.leb_spec x y); f_equal; lia.
Qed.

Lemma loopBest_total op call g empties best :
  (∀ idx, idx ∈ empties → call idx = Some (g idx)) →
  loopBest op call empties best = Some (loopTotal op g empties best).
Proof.
  revert best. induction empties as [|idx rest IH]; intros best Hcall; [done|].
  simpl. rewrite (Hcall idx) by left.
  apply IH. intros j Hj. apply Hcall. by right.
Qed.

Lemma loopTotal_ext op g g' empties best :
  (∀ idx, idx ∈ empties → g idx = g' idx) →
  loopTotal op g empties best = loopTotal op g' empties best.
Proof.
  revert best. induction empties as [|idx rest IH]; intros best Hg; [done|].
  unfold loopTotal in *. simpl. rewrite (Hg idx) by left.
  apply IH. intros j Hj. apply Hg. by right.
Qed.

(** [Math.max] only grows the running best. *)
Lemma loopMax_ge_init g empties best :
  score_leb best (loopTotal score_max g empties best) = true.
Proof.
  revert best. induction empties as [|idx rest IH]; intros best.
  - apply score_leb_refl.
  - unfold loopTotal in *. simpl.
    eapply score_leb_trans; [apply score_max_ge_l|apply IH].
Qed.

(** The result of the maximising loop dominates every call. *)
Lemma loopMax_ge g empties best idx :
  idx ∈ empties →
  score_leb (g idx) (loopTotal score_max g empties best) = true.
Proof.
  revert best. induction empties as [|j rest IH]; intros best Hin.
  - by apply elem_of_nil in Hin.
  - apply elem_of_cons in Hin as [->|Hin]; unfold loopTotal in *; simpl.
    + eapply score_leb_trans; [apply score_max_ge_r|apply loopMax_ge_init].
    + by apply IH.
Qed.

Lemma loopMin_le_init g empties best :
  score_leb (loopTotal score_min g empties best) best = true.
Proof.
  revert best. induction empties as [|idx rest IH]; intros best.
  - apply score_leb_refl.
  - unfold loopTotal in *. simpl.
    eapply score_leb_trans; [apply IH|apply score_min_le_l].
Qed.

(** The result of the minimising loop is below every call. *)
Lemma loopMin_le g empties best idx :
  idx ∈ empties →
  score_leb (loopTotal score_min g empties best) (g idx) = true.
Proof.
  revert best. induction empties as [|j rest IH]; intros best Hin.
  - by apply elem_of_nil in Hin.
  - apply elem_of_cons in Hin as [->|Hin]; unfold loopTotal in *; simpl.
    + eapply score_leb_trans; [apply loopMin_le_init|apply score_min_le_r].
    + by apply IH.
Qed.

(** A lower bound of the initial best and of every call is a lower
    bound of the minimising loop. *)
Lemma loopMin_ge lo g empties best :
  score_leb lo best = true →
  (∀ idx, idx ∈ empties → score_leb lo (g idx) = true) →
  score_leb lo (loopTotal score_min g empties best) = true.
Proof.
  revert best. induction empties as [|j rest IH]; intros best Hb Hg; [done|].
  unfold loopTotal in *. simpl. apply IH.
  - apply score_min_glb; [done|]. apply Hg. by left.
  - intros idx Hidx. apply Hg. by right.
Qed.

(** Over finite calls both loops stay finite once they have a finite
    running best, and the first call makes it finite. *)
Lemma loopTotal_Fin_acc op g empties z :
  (∀ x y, ∃ r, op (Fin x) (Fin y) = Fin r) →
  (∀ idx, idx ∈ empties → ∃ y, g idx = Fin y) →
  ∃ r, loopTotal op g empties (Fin z) = Fin r.
Proof.
  intros Hop. revert z. induction empties as [|j rest IH]; intros z Hg.
  - by exists z.
  - unfold loopTotal in *. simpl.
    destruct (Hg j) as [y ->]; [by left|].
    destruct (Hop z y) as [r ->]. apply IH.
    intros idx Hidx. apply Hg. by right.
Qed.

Lemma loopTotal_Fin op g empties init :
  (∀ x y, ∃ r, op (Fin x) (Fin y) = Fin r) →
  (∀ y, op init (Fin y) = Fin y) →
  empties ≠ [] →
  (∀ idx, idx ∈ empties → ∃ y, g idx = Fin y) →
  ∃ r, loopTotal op g empties init = Fin r.
Proof.
  intros Hop Hinit Hne Hg. destruct empties as [|j rest]; [done|].
  unfold loopTotal. simpl. destruct (Hg j) as [y Hy]; [by left|].
  rewrite Hy, Hinit. apply loopTotal_Fin_acc; [done|].
  intros idx Hidx. apply Hg. by right.
Qed.

End Scores.

(** ** Empty cells *)

Section EmptyCells.

Implicit Types board : Board.

Lemma elem_of_emptyCells board i :
  i ∈ emptyCells board ↔ board !! i = Some None.
Proof.
  unfold emptyCells. rewrite list_elem_of_filter, elem_of_seq.
  unfold isNullAt. split; [by intros [? _]|].
  intros H. split; [done|]. apply lookup_lt_Some in H. lia.
Qed.

Lemma emptyCells_lt board i : i ∈ emptyCells board → i < length board.
Proof. rewrite elem_of_emptyCells. apply lookup_lt_Some. Qed.

Lemma length_emptyCells board : length (emptyCells board) ≤ length board.
Proof.
  unfold emptyCells.
  etrans; [apply length_filter|]. by rewrite length_seq.
Qed.

Lemma emptyCells_nil_full board : emptyCells board = [] ↔ full board.
Proof.
  unfold full. rewrite Forall_lookup. split.
  - intros Hnil i c Hi ->.
    apply elem_of_emptyCells in Hi. rewrite Hnil in Hi.
    by apply elem_of_nil in Hi.
  - intros Hfull. destruct (emptyCells board) as [|i rest] eqn:E; [done|].
    assert (i ∈ emptyCells board) as Hi by (rewrite E; left).
    apply elem_of_emptyCells in Hi. by destruct (Hfull i None Hi).
Qed.

Lemma place_length board i m : length (place board i m) = length board.
Proof. apply length_insert. Qed.

Lemma place_lookup_eq board i m :
  i < length board → place board i m !! i = Some (Some m).
Proof. apply list_lookup_insert_eq. Qed.

Lemma place_lookup_ne board i j m : i ≠ j → place board i m !! j = board !! j.
Proof. apply list_lookup_insert_ne. Qed.

Lemma filter_agree (P Q : nat → Prop)
  `{!∀ x, Decision (P x)} `{!∀ x, Decision (Q x)} (l : list nat) :
  (∀ j, j ∈ l → (Q j ↔ P j)) → filter Q l = filter P l.
Proof.
  induction l as [|x l IH]; intros Hiff; [done|].
  rewrite !filter_cons.
  assert (Q x ↔ P x) as Hx by (apply Hiff; left).
  rewrite IH by (intros j Hj; apply Hiff; by right).
  destruct (decide (Q x)), (decide (P x)); tauto.
Qed.

Lemma filter_drop_one (P Q : nat → Prop)
  `{!∀ x, Decision (P x)} `{!∀ x, Decision (Q x)} (l : list nat) (i : nat) :
  NoDup l → i ∈ l → P i → ¬ Q i → (∀ j, j ≠ i → (Q j ↔ P j)) →
  S (length (filter Q l)) = length (filter P l).
Proof.
  intros Hnd Hin HP HQ Hiff. induction Hnd as [|x l Hx Hnd IH].
  - by apply elem_of_nil in Hin.
  - destruct (decide (x = i)) as [->|Hne].
    + rewrite (filter_cons_True P), (filter_cons_False Q) by done. simpl.
      f_equal. f_equal. apply filter_agree.
      intros j Hj. apply Hiff. by intros ->.
    + apply elem_of_cons in Hin as [->|Hin]; [done|].
      specialize (IH Hin). rewrite !filter_cons.
      destruct (decide (Q x)) as [Hq|Hq], (decide (P x)) as [Hp|Hp]; simpl;
        try (by rewrite IH).
      * by apply Hiff in Hq.
      * by apply Hiff in Hp.
Qed.

(** Placing a mark on an empty cell removes exactly that cell from the
    empty cells. *)
Lemma emptyCells_place board i m :
  i ∈ emptyCells board →
  S (length (emptyCells (place board i m))) = length (emptyCells board).
Proof.
  intros Hi. unfold emptyCells. rewrite place_length.
  apply (filter_drop_one _ _ _ i).
  - apply NoDup_seq.
  - apply elem_of_seq. apply emptyCells_lt in Hi. lia.
  - by apply elem_of_emptyCells.
  - unfold isNullAt. rewrite place_lookup_eq; [done|by apply emptyCells_lt].
  - intros j Hj. unfold isNullAt. by rewrite place_lookup_ne.
Qed.

Lemma budget_place board i m :
  i ∈ emptyCells board → budget (place board i m) = length (emptyCells board).
Proof. intros Hi. unfold budget. by apply emptyCells_place. Qed.

End EmptyCells.

(** ** The minimax recursion *)

Section Minimax.

Variables ai human : Mark.

Implicit Types (board : Board) (isAiTurn : bool) (depth : Z).

Lemma everyNotNull_false_empties board :
  everyNotNull board = false → emptyCells board ≠ [].
Proof.
  intros Hf Hnil. apply emptyCells_nil_full, everyNotNull_full in Hnil.
  congruence.
Qed.

(** Any budget of at least [budget board] is enough, and the result does
    not depend on it. *)
Lemma minimax_fuel_ge fuel : ∀ board isAiTurn depth,
  budget board ≤ fuel →
  minimax_fuel fuel board isAiTurn ai human depth
  = Some (minimax board isAiTurn ai human depth).
Proof.
  induction fuel as [fuel IH] using lt_wf_ind. intros board t d Hfuel.
  destruct fuel as [|f]; [unfold budget in Hfuel; lia|].
  unfold minimax. unfold budget in Hfuel |- *. cbn [minimax_fuel]. cbv zeta.
  repeat (case_match; [done|]).
  destruct t.
  - rewrite !(loopBest_total _ _
      (λ idx, minimax (place board idx ai) false ai human (d + 1))); [done| |].
    + intros idx Hidx. apply IH; [lia|]. by rewrite budget_place.
    + intros idx Hidx. apply IH; [lia|]. rewrite budget_place by done. lia.
  - rewrite !(loopBest_total _ _
      (λ idx, minimax (place board idx human) true ai human (d + 1))); [done| |].
    + intros idx Hidx. apply IH; [lia|]. by rewrite budget_place.
    + intros idx Hidx. apply IH; [lia|]. rewrite budget_place by done. lia.
Qed.

(** [minimax] satisfies the recursive equation of the source. *)
Lemma minimax_eq board isAiTurn depth :
  minimax board isAiTurn ai human depth =
  let w := winner (getWinner board) in
  if bool_decide (w = Some ai) then Fin (10 - depth)
  else if bool_decide (w = Some human) then Fin (depth - 10)
  else if everyNotNull board then Fin 0
  else if isAiTurn then
    loopTotal score_max
      (λ idx, minimax (place board idx ai) false ai human (depth + 1))
      (emptyCells board) NegInf
  else
    loopTotal score_min
      (λ idx, minimax (place board idx human) true ai human (depth + 1))
      (emptyCells board) PosInf.
Proof.
  pose proof (minimax_fuel_ge (budget board) board isAiTurn depth (le_n _)) as H.
  unfold budget in H at 1. cbn [minimax_fuel] in H. cbv zeta in *.
  apply (inj Some). rewrite <- H. clear H.
  repeat (case_match; [done|]).
  destruct isAiTurn; apply loopBest_total; intros idx Hidx;
    apply minimax_fuel_ge; by rewrite budget_place.
Qed.

Lemma minimax_ai_wins board isAiTurn depth :
  winner (getWinner board) = Some ai →
  minimax board isAiTurn ai human depth = Fin (10 - depth).
Proof.
  intros Hw. rewrite minimax_eq. cbv zeta.
  by rewrite bool_decide_eq_true_2.
Qed.

Lemma minimax_human_wins board isAiTurn depth :
  ai ≠ human → winner (getWinner board) = Some human →
  minimax board isAiTurn ai human depth = Fin (depth - 10).
Proof.
  intros Hne Hw. rewrite minimax_eq. cbv zeta. rewrite Hw.
  rewrite bool_decide_eq_false_2 by congruence.
  by rewrite bool_decide_eq_true_2.
Qed.

Lemma minimax_draw board isAiTurn depth :
  winner (getWinner board) = None → full board →
  minimax board isAiTurn ai human depth = Fin 0.
Proof.
  intros Hw Hfull. rewrite minimax_eq. cbv zeta. rewrite Hw.
  rewrite !bool_decide_eq_false_2 by done.
  apply everyNotNull_full in Hfull. by rewrite Hfull.
Qed.

(** The recursion below a position that is not decided. *)
Lemma minimax_open board isAiTurn depth :
  winner (getWinner board) = None → everyNotNull board = false →
  minimax board isAiTurn ai human depth =
  if isAiTurn then
    loopTotal score_max
      (λ idx, minimax (place board idx ai) false ai human (depth + 1))
      (emptyCells board) NegInf
  else
    loopTotal score_min
      (λ idx, minimax (place board idx human) true ai human (depth + 1))
      (emptyCells board) PosInf.
Proof.
  intros Hw Hfull. rewrite minimax_eq. cbv zeta. rewrite Hw, Hfull.
  by rewrite !bool_decide_eq_false_2.
Qed.

(** Every score is a finite number. *)
Lemma minimax_Fin_by n : ∀ board isAiTurn depth,
  length (emptyCells board) = n →
  ∃ z, minimax board isAiTurn ai human depth = Fin z.
Proof.
  induction n as [|n IH]; intros board t d Hn; rewrite minimax_eq; cbv zeta;
    repeat (case_match; [by eexists|]).
  - match goal with H : everyNotNull _ = false |- _ =>
      apply everyNotNull_false_empties in H end.
    by destruct (emptyCells board).
  - match goal with H : everyNotNull _ = false |- _ =>
      apply everyNotNull_false_empties in H; rename H into Hne end.
    assert (∀ m idx, idx ∈ emptyCells board →
                     length (emptyCells (place board idx m)) = n) as Hchild.
    { intros m idx Hidx. pose proof (emptyCells_place board idx m Hidx). lia. }
    destruct t; apply loopTotal_Fin; try done.
    + intros x y. eexists. apply score_max_Fin.
    + intros idx Hidx. by apply IH, Hchild.
    + intros x y. eexists. apply score_min_Fin.
    + intros idx Hidx. by apply IH, Hchild.
Qed.

Lemma minimax_Fin board isAiTurn depth :
  ∃ z, minimax board isAiTurn ai human depth = Fin z.
Proof. by eapply minimax_Fin_by. Qed.

(** No score is below that of an immediate human win: with at most
    [10 - depth] empty cells left, [depth - 10] is a lower bound. *)
Lemma minimax_lower_by n : ∀ board isAiTurn depth,
  length (emptyCells board) = n → (depth + Z.of_nat n <= 10)%Z →
  score_leb (Fin (depth - 10)) (minimax board isAiTurn ai human depth) = true.
Proof.
  induction n as [|n IH]; intros board t d Hn Hd; rewrite minimax_eq; cbv zeta;
    repeat (case_match; [apply score_leb_Fin; lia|]).
  - match goal with H : everyNotNull _ = false |- _ =>
      apply everyNotNull_false_empties in H end.
    by destruct (emptyCells board).
  - assert (∀ m isAi idx, idx ∈ emptyCells board →
              score_leb (Fin (d - 10))
                (minimax (place board idx m) isAi ai human (d + 1)) = true)
      as Hchild.
    { intros m isAi idx Hidx.
      apply score_leb_trans with (Fin (d + 1 - 10)); [apply score_leb_Fin; lia|].
      apply IH; [|lia]. pose proof (emptyCells_place board idx m Hidx). lia. }
    destruct t.
    + destruct (emptyCells board) as [|idx rest] eqn:E; [done|].
      eapply score_leb_trans; [apply (Hchild ai false idx); left|].
      apply (loopMax_ge
               (λ i, minimax (place board i ai) false ai human (d + 1))
               (idx :: rest) NegInf idx). left.
    + apply loopMin_ge; [done|]. intros idx Hidx. by apply Hchild.
Qed.

Lemma minimax_lower board isAiTurn depth :
  (depth + Z.of_nat (length (emptyCells board)) <= 10)%Z →
  score_leb (Fin (depth - 10)) (minimax board isAiTurn ai human depth) = true.
Proof. by apply minimax_lower_by. Qed.

(** Where nobody has won yet the bound is one better. *)
Lemma minimax_lower_open board isAiTurn depth :
  winner (getWinner board) = None →
  (depth <= 9)%Z →
  (depth + Z.of_nat (length (emptyCells board)) <= 10)%Z →
  score_leb (Fin (depth - 9)) (minimax board isAiTurn ai human depth) = true.
Proof.
  intros Hw Hd9 Hd. destruct (everyNotNull board) eqn:Hfull.
  - rewrite minimax_draw; [apply score_leb_Fin; lia|done|].
    by apply everyNotNull_full.
  - rewrite minimax_open by done.
    assert (∀ m isAi idx, idx ∈ emptyCells board →
              score_leb (Fin (depth - 9))
                (minimax (place board idx m) isAi ai human (depth + 1)) = true)
      as Hchild.
    { intros m isAi idx Hidx.
      replace (depth - 9)%Z with (depth + 1 - 10)%Z by lia.
      apply minimax_lower.
      pose proof (emptyCells_place board idx m Hidx). lia. }
    apply everyNotNull_false_empties in Hfull.
    destruct isAiTurn.
    + destruct (emptyCells board) as [|idx rest] eqn:E; [done|].
      eapply score_leb_trans; [apply (Hchild ai false idx); left|].
      apply (loopMax_ge
               (λ i, minimax (place board i ai) false ai human (depth + 1))
               (idx :: rest) NegInf idx). left.
    + apply loopMin_ge; [done|]. intros idx Hidx. by apply Hchild.
Qed.

End Minimax.

(** ** The root loop and the tie-break *)

Section RootLoop.

Variable board : Board.
Variables ai human : Mark.

#[local] Abbreviation score := (rootScore board ai human).

(** After the root loop over [l]: [bestMoves] holds exactly the indices
    of [l] whose score is [bestScore], and [bestScore] is the maximum. *)
Lemma bestStep_fold l :
  let st := fold_left (bestStep board ai human) l (NegInf, []) in
  (∀ e, e ∈ st.2 ↔ e ∈ l ∧ score e = st.1)
  ∧ (∀ i, i ∈ l → score_leb (score i) st.1 = true)
  ∧ (l ≠ [] → ∃ i, i ∈ l ∧ score i = st.1).
Proof.
  induction l as [|x l IH] using rev_ind; simpl.
  - split_and!; [|by intros i Hi%elem_of_nil|done].
    intros e. split; [by intros He%elem_of_nil|by intros [He%elem_of_nil _]].
  - rewrite fold_left_app. simpl.
    destruct (fold_left (bestStep board ai human) l (NegInf, []))
      as [bs bm] eqn:Est.
    simpl in IH. destruct IH as (Hmem & Hmax & Hex).
    unfold bestStep, score_gtb, score_eqb.
    destruct (score_leb (score x) bs) eqn:Hle; simpl.
    + case_bool_decide as Heq; simpl.
      * split_and!.
        -- intros e. rewrite !elem_of_app, Hmem, list_elem_of_singleton.
           split; [intros [[? ?]| ->]; auto|intros [[?| ->] ?]; auto].
        -- intros i [Hi| ->%list_elem_of_singleton]%elem_of_app; [by apply Hmax|].
           rewrite Heq. apply score_leb_refl.
        -- intros _. exists x. split; [|done].
           apply elem_of_app. right. by left.
      * assert (l ≠ []) as Hl.
        { intros ->. simpl in Est. injection Est as <- <-.
          apply Heq. by destruct (score x). }
        split_and!.
        -- intros e. rewrite elem_of_app, Hmem, list_elem_of_singleton.
           split; [intros [? ?]; auto|intros [[?| ->] ?]; [auto|done]].
        -- intros i [Hi| ->%list_elem_of_singleton]%elem_of_app; [by apply Hmax|done].
        -- intros _. destruct (Hex Hl) as (i & Hi & Hsi).
           exists i. split; [|done]. apply elem_of_app. by left.
    + assert (score_leb bs (score x) = true) as Hge.
      { destruct (score_leb_total bs (score x)); [done|congruence]. }
      split_and!.
      * intros e. rewrite elem_of_app, !list_elem_of_singleton. split.
        -- intros ->. by split; [right|].
        -- intros [[He| ->] Hs]; [|done].
           apply Hmax in He. rewrite Hs in He. congruence.
      * intros i [Hi| ->%list_elem_of_singleton]%elem_of_app.
        -- eapply score_leb_trans; [by apply Hmax|done].
        -- apply score_leb_refl.
      * intros _. exists x. split; [|done]. apply elem_of_app. right. by left.
Qed.

(** [bestMoves] holds exactly the empty cells of maximal score. *)
Lemma elem_of_bestMoves e :
  e ∈ bestMoves board ai human ↔
  e ∈ emptyCells board ∧ score e = (bestState board ai human).1.
Proof. apply (bestStep_fold (emptyCells board)). Qed.

Lemma bestMoves_maximal e i :
  e ∈ bestMoves board ai human → i ∈ emptyCells board →
  score_leb (score i) (score e) = true.
Proof.
  intros [_ ->]%elem_of_bestMoves Hi.
  by apply (bestStep_fold (emptyCells board)).
Qed.

Lemma bestMoves_nonempty :
  emptyCells board ≠ [] → bestMoves board ai human ≠ [].
Proof.
  intros Hne Hnil.
  destruct (bestStep_fold (emptyCells board)) as (_ & _ & Hex).
  destruct (Hex Hne) as (i & Hi & Hs).
  assert (i ∈ bestMoves board ai human) as Hin by by apply elem_of_bestMoves.
  rewrite Hnil in Hin. by apply elem_of_nil in Hin.
Qed.

(** [Math.floor(rnd * len)] is an index of an array of length [len]. *)
Lemma randomIndex_range (rnd : Q) (len : nat) :
  (0 <= rnd)%Q → (rnd < 1)%Q → 0 < len →
  (0 <= randomIndex rnd len < Z.of_nat len)%Z.
Proof.
  intros H0 H1 Hlen. unfold randomIndex.
  set (L := inject_Z (Z.of_nat len)).
  assert (0 < L)%Q as HL.
  { unfold L. change (inject_Z 0 < inject_Z (Z.of_nat len))%Q.
    rewrite <- Zlt_Qlt. lia. }
  split.
  - change 0%Z with (Qfloor 0). apply Qfloor_resp_le.
    apply Qmult_le_0_compat; [done|]. by apply Qlt_le_weak.
  - rewrite Zlt_Qlt. eapply Qle_lt_trans; [apply Qfloor_le|].
    fold L. rewrite <- (Qmult_1_l L) at 2.
    by apply Qmult_lt_compat_r.
Qed.

(** Conversely every index of the array is drawn by some [rnd], so that
    quantifying over [rnd] covers every outcome of the tie-break. *)
Lemma randomIndex_onto (len k : nat) :
  k < len →
  ∃ rnd : Q, (0 <= rnd)%Q ∧ (rnd < 1)%Q ∧ randomIndex rnd len = Z.of_nat k.
Proof.
  intros Hk.
  assert (Z.pos (Pos.of_nat len) = Z.of_nat len) as Hpos.
  { rewrite <- positive_nat_Z, Nat2Pos.id; [done|lia]. }
  exists (Z.of_nat k # Pos.of_nat len). split_and!.
  - unfold Qle. simpl. lia.
  - unfold Qlt. simpl. lia.
  - unfold randomIndex, Qfloor, Qmult, inject_Z. simpl Qnum. simpl Qden.
    rewrite Pos.mul_1_r, Hpos. apply Z.div_mul. lia.
Qed.

Lemma readMove_in (moves : list nat) (k : Z) :
  (0 <= k < Z.of_nat (length moves))%Z →
  ∃ idx, readMove moves k = MoveIndex idx ∧ idx ∈ moves.
Proof.
  intros Hk. unfold readMove.
  destruct (Z.ltb_spec k 0) as [?|_]; [lia|].
  destruct (lookup_lt_is_Some_2 moves (Z.to_nat k)) as [idx Hidx]; [lia|].
  rewrite Hidx. exists idx. split; [done|].
  by eapply list_elem_of_lookup_2.
Qed.

(** The two ways [getBestMove] returns. *)
Lemma getBestMove_cases (rnd : Q) :
  (0 <= rnd)%Q → (rnd < 1)%Q →
  (emptyCells board = [] ∧ getBestMove board ai human rnd = MoveNull)
  ∨ (emptyCells board ≠ []
     ∧ ∃ idx, getBestMove board ai human rnd = MoveIndex idx
              ∧ idx ∈ bestMoves board ai human).
Proof.
  intros H0 H1. unfold getBestMove. cbv zeta.
  destruct (emptyCells board) as [|i rest] eqn:E; [by left|].
  right. split; [done|]. simpl Nat.eqb. cbv iota.
  apply readMove_in, randomIndex_range; [done..|].
  pose proof bestMoves_nonempty as Hne. rewrite E in Hne.
  destruct (bestMoves board ai human); [by destruct Hne|simpl; lia].
Qed.

End RootLoop.

(** ** Properties of the evaluator *)

(** C1. On a 9-cell board where the mark [m] has a completed line and
    the other mark has none, [getWinner] returns [m] as the winner
    together with the index triple of a line of [LINES] that [m]
    completes. *)
Theorem getWinner_reports_winner (board : Board) (m : Mark) :
  length board = 9 →
  hasLine board m → ¬ hasLine board (opponent m) →
  ∃ l, l ∈ LINES ∧ completes board m l
       ∧ getWinner board = mkWinResult (Some m) (Some (triple l)).
Proof.
  intros _ Hm Hno. pose proof (getWinner_sole board m Hm Hno) as Hw.
  destruct (getWinner board) as [w t] eqn:Hg. simpl in Hw. subst w.
  destruct (getWinner_some board m t Hg) as (l & Hin & Hl & ->).
  by exists l.
Qed.

Lemma getWinner_reports_winner_witness :
  let board := [Some X; Some O; None; Some O; Some X; None; None; None; Some X] in
  length board = 9 ∧ hasLine board X ∧ ¬ hasLine board (opponent X)
  ∧ ∃ l, l ∈ LINES ∧ completes board X l
         ∧ getWinner board = mkWinResult (Some X) (Some (triple l)).
Proof.
  intros board.
  assert (length board = 9) as Hlen by reflexivity.
  assert (hasLine board X) as HX by compute_done.
  assert (¬ hasLine board (opponent X)) as HO
    by compute_done.
  exact (conj Hlen (conj HX (conj HO
           (getWinner_reports_winner board X Hlen HX HO)))).
Defined.

(** C2. On a 9-cell board [isDraw] returns [true] exactly when every
    cell is occupied and no mark has a completed line. *)
Theorem isDraw_iff (board : Board) :
  length board = 9 →
  isDraw board = true ↔ full board ∧ ∀ m, ¬ hasLine board m.
Proof.
  intros _. unfold isDraw.
  rewrite andb_true_iff, bool_decide_eq_true, everyNotNull_full.
  by rewrite getWinner_none.
Qed.

Lemma isDraw_iff_witness :
  let board := [Some X; Some O; Some X; Some O; Some X; Some O;
                Some O; Some X; Some O] in
  length board = 9
  ∧ (isDraw board = true ↔ full board ∧ ∀ m, ¬ hasLine board m).
Proof.
  intros board.
  assert (length board = 9) as Hlen by reflexivity.
  exact (conj Hlen (isDraw_iff board Hlen)).
Defined.

(** C10. [getWinner] reports the first line, in the fixed order of
    [LINES] (rows, then columns, then diagonals), that some mark
    completes, whatever lines are completed after it; and every line it
    reports is held by the reported mark, so that a line of three empty
    cells is never reported. *)
Theorem getWinner_first_line (board : Board) :
  length board = 9 →
  LINES = [ (0, 1, 2); (3, 4, 5); (6, 7, 8);
            (0, 3, 6); (1, 4, 7); (2, 5, 8);
            (0, 4, 8); (2, 4, 6) ]
  ∧ (∀ pre l post m,
        LINES = pre ++ l :: post → Forall (unmarked board) pre →
        completes board m l →
        getWinner board = mkWinResult (Some m) (Some (triple l)))
  ∧ (∀ w t,
        getWinner board = mkWinResult w (Some t) →
        ∃ l m, l ∈ LINES ∧ t = triple l ∧ w = Some m ∧ completes board m l)
  ∧ (∀ a b c,
        board !! a = Some None → board !! b = Some None →
        board !! c = Some None →
        line (getWinner board) ≠ Some [a; b; c]).
Proof.
  intros _.
  assert (∀ w t,
        getWinner board = mkWinResult w (Some t) →
        ∃ l m, l ∈ LINES ∧ t = triple l ∧ w = Some m ∧ completes board m l)
    as Hreported.
  { intros w t Hg. destruct w as [m|].
    - destruct (getWinner_some board m _ Hg) as (l & Hin & Hl & [= ->]).
      by exists l, m.
    - unfold getWinner in Hg.
      destruct (getWinner_loop_cases board LINES)
        as [[_ Hres]|(pre & l & post & m & _ & _ & _ & Hres)];
        rewrite Hres in Hg; discriminate. }
  split_and!; [done| |done|].
  - intros pre l post m Heq Hpre Hl. unfold getWinner. rewrite Heq.
    by apply getWinner_loop_first.
  - intros a b c Ha Hb Hc Hline.
    destruct (getWinner board) as [w t] eqn:Hg. simpl in Hline. subst t.
    destruct (Hreported w _ eq_refl) as ([[a' b'] c'] & m & _ & [= -> -> ->] & _ & Hm).
    destruct Hm as (Ha' & _). congruence.
Qed.

Lemma getWinner_first_line_witness :
  getWinner [Some O; None; Some X; Some O; None; Some X; Some O; None; Some X]
  = mkWinResult (Some O) (Some [0; 3; 6]).
Proof.
  set (board := [Some O; None; Some X; Some O; None; Some X;
                 Some O; None; Some X]).
  destruct (getWinner_first_line board eq_refl) as (_ & Hfirst & _).
  apply (Hfirst [(0, 1, 2); (3, 4, 5); (6, 7, 8)] (0, 3, 6)
           [(1, 4, 7); (2, 5, 8); (0, 4, 8); (2, 4, 6)] O).
  - reflexivity.
  - compute_done.
  - compute_done.
Defined.

(** ** Properties of the move selector *)

Lemma full_emptyCells (board : Board) : full board ↔ emptyCells board = [].
Proof. symmetry. apply emptyCells_nil_full. Qed.

(** C3. On a 9-cell board, whatever the random draw, [getBestMove]
    returns [null] if and only if the board has no empty cell, and on a
    board with an empty cell it returns an index. *)
Theorem getBestMove_null_iff (board : Board) (ai human : Mark) (rnd : Q) :
  length board = 9 → (0 <= rnd)%Q → (rnd < 1)%Q →
  (getBestMove board ai human rnd = MoveNull ↔ full board)
  ∧ (¬ full board → ∃ idx, getBestMove board ai human rnd = MoveIndex idx).
Proof.
  intros _ H0 H1. rewrite full_emptyCells.
  destruct (getBestMove_cases board ai human rnd H0 H1)
    as [[Hnil Hres]|[Hne (idx & Hres & _)]]; rewrite Hres.
  - by split.
  - split; [by split|]. intros _. by exists idx.
Qed.

Lemma getBestMove_null_iff_witness :
  let board := [Some X; None; None; None; Some O; None; None; None; Some X] in
  length board = 9 ∧ (0 <= 1 # 2)%Q ∧ (1 # 2 < 1)%Q
  ∧ (getBestMove board O X (1 # 2) = MoveNull ↔ full board)
  ∧ (¬ full board → ∃ idx, getBestMove board O X (1 # 2) = MoveIndex idx).
Proof.
  intros board.
  assert (length board = 9) as Hlen by reflexivity.
  assert (0 <= 1 # 2)%Q as H0 by (unfold Qle; simpl; lia).
  assert (1 # 2 < 1)%Q as H1 by (unfold Qlt; simpl; lia).
  exact (conj Hlen (conj H0 (conj H1
           (getBestMove_null_iff board O X (1 # 2) Hlen H0 H1)))).
Defined.

(** C4. On a 9-cell board with an empty cell, whatever the random draw,
    [getBestMove] returns an index in 0..8 whose cell is empty on the
    input board. *)
Theorem getBestMove_empty_cell (board : Board) (ai human : Mark) (rnd : Q) :
  length board = 9 → ¬ full board → (0 <= rnd)%Q → (rnd < 1)%Q →
  ∃ idx, getBestMove board ai human rnd = MoveIndex idx
         ∧ idx < 9 ∧ board !! idx = Some None.
Proof.
  intros Hlen Hfull H0 H1. rewrite full_emptyCells in Hfull.
  destruct (getBestMove_cases board ai human rnd H0 H1)
    as [[Hnil _]|[_ (idx & Hres & Hin)]]; [done|].
  apply elem_of_bestMoves in Hin as [Hin _].
  exists idx. split; [done|]. split.
  - rewrite <- Hlen. by apply emptyCells_lt.
  - by apply elem_of_emptyCells.
Qed.

Lemma getBestMove_empty_cell_witness :
  let board := [Some X; None; None; None; Some O; None; None; None; Some X] in
  length board = 9 ∧ ¬ full board ∧ (0 <= 3 # 4)%Q ∧ (3 # 4 < 1)%Q
  ∧ ∃ idx, getBestMove board O X (3 # 4) = MoveIndex idx
           ∧ idx < 9 ∧ board !! idx = Some None.
Proof.
  intros board.
  assert (length board = 9) as Hlen by reflexivity.
  assert (¬ full board) as Hfull by compute_done.
  assert (0 <= 3 # 4)%Q as H0 by (unfold Qle; simpl; lia).
  assert (3 # 4 < 1)%Q as H1 by (unfold Qlt; simpl; lia).
  exact (conj Hlen (conj Hfull (conj H0 (conj H1
           (getBestMove_empty_cell board O X (3 # 4) Hlen Hfull H0 H1))))).
Defined.

Lemma opponent_of (m m' : Mark) : m ≠ m' → opponent m = m'.
Proof. by destruct m, m'. Qed.

Lemma sole_line_winner (board : Board) (m m' : Mark) :
  hasLine board m → ¬ hasLine board m' →
  m ≠ m' ∧ winner (getWinner board) = Some m.
Proof.
  intros Hm Hno. assert (m ≠ m') as Hne by (by intros ->).
  split; [done|]. apply getWinner_sole; [done|]. by rewrite (opponent_of m m').
Qed.

(** C5, as the code has it. At an integer depth [d] of magnitude at
    most 2^52, where the arithmetic of the source on doubles is exact,
    [minimax] gives [10 - d] to a 9-cell board where the AI mark has a
    completed line and the human mark has none, [d - 10] to one where
    the human mark has a completed line and the AI mark has none, and
    [0] to a fully occupied board without a completed line; hence among
    such AI wins a smaller depth scores strictly higher, and among such
    human wins strictly lower. Where both marks have a completed line,
    the mark of the first completed line in the order of [LINES]
    decides: [10 - d] if it is the AI mark, [d - 10] if it is the human
    mark. *)
Theorem minimax_terminal_scores (ai human : Mark) :
  (∀ board isAiTurn d,
      length board = 9 → (Z.abs d <= 2 ^ 52)%Z →
      hasLine board ai → ¬ hasLine board human →
      minimax board isAiTurn ai human d = Fin (10 - d))
  ∧ (∀ board isAiTurn d,
      length board = 9 → (Z.abs d <= 2 ^ 52)%Z →
      hasLine board human → ¬ hasLine board ai →
      minimax board isAiTurn ai human d = Fin (d - 10))
  ∧ (∀ board isAiTurn d,
      length board = 9 → (Z.abs d <= 2 ^ 52)%Z →
      full board → (∀ m, ¬ hasLine board m) →
      minimax board isAiTurn ai human d = Fin 0)
  ∧ (∀ b1 b2 t1 t2 d1 d2,
      length b1 = 9 → length b2 = 9 →
      (Z.abs d1 <= 2 ^ 52)%Z → (Z.abs d2 <= 2 ^ 52)%Z →
      hasLine b1 ai → ¬ hasLine b1 human →
      hasLine b2 ai → ¬ hasLine b2 human →
      (d1 < d2)%Z →
      score_gtb (minimax b1 t1 ai human d1) (minimax b2 t2 ai human d2) = true)
  ∧ (∀ b1 b2 t1 t2 d1 d2,
      length b1 = 9 → length b2 = 9 →
      (Z.abs d1 <= 2 ^ 52)%Z → (Z.abs d2 <= 2 ^ 52)%Z →
      hasLine b1 human → ¬ hasLine b1 ai →
      hasLine b2 human → ¬ hasLine b2 ai →
      (d1 < d2)%Z →
      score_gtb (minimax b2 t2 ai human d2) (minimax b1 t1 ai human d1) = true)
  ∧ (∀ board isAiTurn d pre l post m,
      length board = 9 → (Z.abs d <= 2 ^ 52)%Z →
      LINES = pre ++ l :: post → Forall (unmarked board) pre →
      completes board m l →
      (m = ai → minimax board isAiTurn ai human d = Fin (10 - d))
      ∧ (m ≠ ai → m = human →
         minimax board isAiTurn ai human d = Fin (d - 10))).
Proof.
  assert (∀ board isAiTurn d,
      hasLine board ai → ¬ hasLine board human →
      minimax board isAiTurn ai human d = Fin (10 - d)) as Hai.
  { intros board t d Hl Hno.
    destruct (sole_line_winner board ai human Hl Hno) as [_ Hw].
    by apply minimax_ai_wins. }
  assert (∀ board isAiTurn d,
      hasLine board human → ¬ hasLine board ai →
      minimax board isAiTurn ai human d = Fin (d - 10)) as Hhuman.
  { intros board t d Hl Hno.
    destruct (sole_line_winner board human ai Hl Hno) as [Hne Hw].
    by apply minimax_human_wins. }
  split_and!.
  - intros board t d _ _. apply Hai.
  - intros board t d _ _. apply Hhuman.
  - intros board t d _ _ Hfull Hno. apply minimax_draw; [|done].
    by apply getWinner_none.
  - intros b1 b2 t1 t2 d1 d2 _ _ _ _ H1 N1 H2 N2 Hd.
    rewrite !Hai by done. unfold score_gtb. simpl.
    apply negb_true_iff, Z.leb_gt. lia.
  - intros b1 b2 t1 t2 d1 d2 _ _ _ _ H1 N1 H2 N2 Hd.
    rewrite !Hhuman by done. unfold score_gtb. simpl.
    apply negb_true_iff, Z.leb_gt. lia.
  - intros board t d pre l post m _ _ Heq Hpre Hl.
    assert (winner (getWinner board) = Some m) as Hw.
    { unfold getWinner. rewrite Heq.
      by rewrite (getWinner_loop_first board pre l post m). }
    split.
    + intros ->. by apply minimax_ai_wins.
    + intros Hne ->. by apply minimax_human_wins.
Qed.

Lemma minimax_terminal_scores_witness :
  let won := [Some O; Some O; Some O; Some X; Some X; None; Some X; None; None] in
  let lost := [Some X; Some X; Some X; Some O; Some O; None; None; None; None] in
  let both := [Some X; Some X; Some X; Some O; Some O; Some O;
               None; None; None] in
  minimax won false O X 2 = Fin 8 ∧ minimax lost true O X 3 = Fin (-7)
  ∧ minimax both true O X 1 = Fin (1 - 10).
Proof.
  intros won lost both.
  destruct (minimax_terminal_scores O X) as (Hai & Hhuman & _ & _ & _ & Hfirst).
  split_and!.
  - apply (Hai won false 2%Z);
      [reflexivity|compute_done|compute_done|compute_done].
  - apply (Hhuman lost true 3%Z);
      [reflexivity|compute_done|compute_done|compute_done].
  - apply (Hfirst both true 1%Z [] (0, 1, 2)
             [(3, 4, 5); (6, 7, 8); (0, 3, 6); (1, 4, 7); (2, 5, 8);
              (0, 4, 8); (2, 4, 6)] X);
      [reflexivity|compute_done|reflexivity|constructor|compute_done
      |discriminate|reflexivity].
Defined.

(** C5 as stated fails where both marks have a completed line: the
    first line in the order of [LINES] decides. Here the AI mark [O] has
    the middle row, yet the score at depth 0 is [-10]. *)
Lemma minimax_both_lines_counterexample :
  let board := [Some X; Some X; Some X; Some O; Some O; Some O;
                None; None; None] in
  length board = 9 ∧ hasLine board O
  ∧ minimax board true O X 0 = Fin (-10)
  ∧ minimax board true O X 0 ≠ Fin (10 - 0).
Proof.
  intros board. split_and!; [reflexivity|compute_done|compute_done|].
  intros H. vm_compute in H. discriminate.
Qed.

(** C7. On [X,X,_, _,O,_, _,_,_] with the AI playing [O],
    [getBestMove] returns 2 whatever the random draw: 2 is the only
    root move of maximal score. *)
Theorem getBestMove_blocks_top_row (rnd : Q) :
  (0 <= rnd)%Q → (rnd < 1)%Q →
  boardBlock = [Some X; Some X; None; None; Some O; None; None; None; None]
  ∧ getBestMove boardBlock O X rnd = MoveIndex 2
  ∧ bestMoves boardBlock O X = [2]
  ∧ Forall (λ idx, idx ≠ 2 →
              score_gtb (rootScore boardBlock O X 2)
                        (rootScore boardBlock O X idx) = true)
           (emptyCells boardBlock).
Proof.
  intros H0 H1.
  assert (bestMoves boardBlock O X = [2]) as Hbest by (vm_compute; reflexivity).
  split_and!; [done| |done|compute_done].
  destruct (getBestMove_cases boardBlock O X rnd H0 H1)
    as [[Hnil _]|[_ (idx & Hres & Hin)]]; [discriminate|].
  rewrite Hbest in Hin. apply list_elem_of_singleton in Hin. by subst idx.
Qed.

Lemma getBestMove_blocks_top_row_witness :
  (0 <= 2 # 3)%Q ∧ (2 # 3 < 1)%Q
  ∧ getBestMove boardBlock O X (2 # 3) = MoveIndex 2.
Proof.
  assert (0 <= 2 # 3)%Q as H0 by (unfold Qle; simpl; lia).
  assert (2 # 3 < 1)%Q as H1 by (unfold Qlt; simpl; lia).
  exact (conj H0 (conj H1
           (proj1 (proj2 (getBestMove_blocks_top_row (2 # 3) H0 H1))))).
Defined.

(** C8. On [O,O,_, X,X,_, _,_,_] with the AI playing [O],
    [getBestMove] returns 2, which completes the AI's top row, and not
    5, which would block the human's middle row, whatever the random
    draw. *)
Theorem getBestMove_completes_top_row (rnd : Q) :
  (0 <= rnd)%Q → (rnd < 1)%Q →
  boardWin = [Some O; Some O; None; Some X; Some X; None; None; None; None]
  ∧ getBestMove boardWin O X rnd = MoveIndex 2
  ∧ bestMoves boardWin O X = [2]
  ∧ winner (getWinner (place boardWin 2 O)) = Some O
  ∧ winsAt boardWin X 5.
Proof.
  intros H0 H1.
  assert (bestMoves boardWin O X = [2]) as Hbest by (vm_compute; reflexivity).
  split_and!; [done| |done|done|compute_done].
  destruct (getBestMove_cases boardWin O X rnd H0 H1)
    as [[Hnil _]|[_ (idx & Hres & Hin)]]; [discriminate|].
  rewrite Hbest in Hin. apply list_elem_of_singleton in Hin. by subst idx.
Qed.

Lemma getBestMove_completes_top_row_witness :
  (0 <= 0)%Q ∧ (0 < 1)%Q ∧ getBestMove boardWin O X 0 = MoveIndex 2.
Proof.
  assert (0 <= 0)%Q as H0 by (unfold Qle; simpl; lia).
  assert (0 < 1)%Q as H1 by (unfold Qlt; simpl; lia).
  exact (conj H0 (conj H1
           (proj1 (proj2 (getBestMove_completes_top_row 0 H0 H1))))).
Defined.

(** C9. On a 9-cell board the search terminates: the recursion budget
    never exceeds 10, any budget of at least [budget board] makes
    [minimax] return a finite score, each recursive call is made on a
    board with strictly fewer empty cells, the recursion stops without
    a recursive call at a board with a winner or with no empty cell, and
    every call that [getBestMove] makes returns within nine levels. *)
Theorem minimax_terminates (board : Board) (ai human : Mark) :
  length board = 9 →
  budget board ≤ 10
  ∧ (∀ fuel isAiTurn depth,
        budget board ≤ fuel →
        ∃ z, minimax_fuel fuel board isAiTurn ai human depth = Some (Fin z))
  ∧ (∀ idx m,
        idx ∈ emptyCells board →
        length (emptyCells (place board idx m)) < length (emptyCells board))
  ∧ (∀ isAiTurn depth,
        winner (getWinner board) = Some ai
        ∨ winner (getWinner board) = Some human
        ∨ full board →
        ∃ z, minimax_fuel 1 board isAiTurn ai human depth = Some (Fin z))
  ∧ (∀ isAiTurn depth,
        ai ≠ human → winner (getWinner board) ≠ None →
        ∃ z, minimax_fuel 1 board isAiTurn ai human depth = Some (Fin z))
  ∧ (∀ idx,
        idx ∈ emptyCells board →
        ∃ z, minimax_fuel 9 (place board idx ai) false ai human 0 = Some (Fin z)
             ∧ rootScore board ai human idx = Fin z).
Proof.
  intros Hlen.
  assert (budget board ≤ 10) as Hbudget.
  { unfold budget. pose proof (length_emptyCells board). lia. }
  assert (∀ isAiTurn depth,
        winner (getWinner board) = Some ai
        ∨ winner (getWinner board) = Some human
        ∨ full board →
        ∃ z, minimax_fuel 1 board isAiTurn ai human depth = Some (Fin z))
    as Hstop.
  { intros t d Hdecided. cbn [minimax_fuel]. cbv zeta.
    destruct Hdecided as [Hw|[Hw|Hfull%everyNotNull_full]].
    - rewrite Hw, bool_decide_eq_true_2 by done. by eexists.
    - rewrite Hw. case_bool_decide; [by eexists|].
      rewrite bool_decide_eq_true_2 by done. by eexists.
    - rewrite Hfull. repeat (case_bool_decide; [by eexists|]). by eexists. }
  split_and!; [done| | |done| |].
  - intros fuel t d Hfuel. rewrite minimax_fuel_ge by done.
    destruct (minimax_Fin ai human board t d) as [z ->]. by exists z.
  - intros idx m Hidx. pose proof (emptyCells_place board idx m Hidx). lia.
  - intros t d Hne Hw. apply Hstop.
    destruct (winner (getWinner board)) as [w|]; [|done].
    destruct (decide (w = ai)) as [->|Hwa]; [by left|].
    right. left. f_equal. by destruct w, ai, human.
  - intros idx Hidx. unfold rootScore.
    destruct (minimax_Fin ai human (place board idx ai) false 0) as [z Hz].
    exists z. split; [|done]. rewrite minimax_fuel_ge; [by rewrite Hz|].
    rewrite budget_place by done. unfold budget in Hbudget. lia.
Qed.

Lemma minimax_terminates_witness :
  ∃ z, minimax_fuel 7 boardBlock false O X 0 = Some (Fin z).
Proof.
  destruct (minimax_terminates boardBlock O X eq_refl) as (_ & Hfuel & _).
  apply Hfuel. vm_compute. lia.
Defined.

(** ** Blocking *)

Section Blocking.

Implicit Types board : Board.

(** A mark placed on an empty cell neither makes nor breaks a line of
    the other mark. *)
Lemma place_lookup_other board i m m' k :
  board !! i = Some None → m ≠ m' →
  place board i m !! k = Some (Some m') ↔ board !! k = Some (Some m').
Proof.
  intros Hi Hne. destruct (decide (i = k)) as [<-|Hik].
  - rewrite place_lookup_eq by (by eapply lookup_lt_Some).
    rewrite Hi. split; intros [=]. congruence.
  - by rewrite place_lookup_ne.
Qed.

Lemma completes_place_other board i m m' l :
  board !! i = Some None → m ≠ m' →
  completes (place board i m) m' l ↔ completes board m' l.
Proof.
  intros Hi Hne. destruct l as [[a b] c]. unfold completes.
  by rewrite !(place_lookup_other board i m m').
Qed.

Lemma hasLine_place_other board i m m' :
  board !! i = Some None → m ≠ m' →
  hasLine (place board i m) m' ↔ hasLine board m'.
Proof.
  intros Hi Hne. unfold hasLine. rewrite !Exists_exists.
  split; intros (l & Hin & Hl); exists l; split; try done;
    by apply (completes_place_other board i m m' l).
Qed.

Lemma threatens_iff board m :
  threatens board m ↔ ∃ i, winsAt board m i.
Proof.
  unfold threatens. rewrite Exists_exists. split.
  - intros (i & _ & Hi). by exists i.
  - intros (i & Hi). exists i. split; [|done].
    apply elem_of_seq. destruct Hi as [Hi%lookup_lt_Some _]. lia.
Qed.

Variable board : Board.
Variables ai human : Mark.

Hypothesis board_cells : length board = 9.
Hypothesis board_open : ∀ m, ¬ hasLine board m.
Hypothesis ai_no_win : ¬ threatens board ai.
Hypothesis marks_differ : ai ≠ human.

Lemma either_mark (m : Mark) : m = ai ∨ m = human.
Proof. clear -marks_differ. destruct m, ai, human; auto; done. Qed.

(** No AI move decides the game. *)
Lemma after_ai_open idx :
  idx ∈ emptyCells board → winner (getWinner (place board idx ai)) = None.
Proof.
  intros Hidx%elem_of_emptyCells. apply getWinner_none. intros m Hm.
  destruct (either_mark m) as [-> | ->].
  - apply ai_no_win, threatens_iff. by exists idx.
  - apply (board_open human). by apply (hasLine_place_other board idx ai human).
Qed.

Lemma after_ai_empties idx :
  idx ∈ emptyCells board → length (emptyCells (place board idx ai)) ≤ 8.
Proof.
  intros Hidx. pose proof (emptyCells_place board idx ai Hidx).
  pose proof (length_emptyCells board). lia.
Qed.

(** An AI move that leaves the human an immediately winning move
    scores [-9]. *)
Lemma rootScore_unblocked idx :
  idx ∈ emptyCells board → threatens (place board idx ai) human →
  rootScore board ai human idx = Fin (-9).
Proof.
  intros Hidx [j [Hj Hline]]%threatens_iff.
  pose proof (after_ai_open idx Hidx) as Hopen.
  pose proof (after_ai_empties idx Hidx) as Hcount.
  set (next := place board idx ai) in *.
  assert (j ∈ emptyCells next) as Hjin by by apply elem_of_emptyCells.
  assert (everyNotNull next = false) as Hnotfull.
  { destruct (everyNotNull next) eqn:E; [|done].
    apply everyNotNull_full, full_emptyCells in E. rewrite E in Hjin.
    by apply elem_of_nil in Hjin. }
  unfold rootScore. fold next. rewrite minimax_open by done.
  apply score_leb_antisym.
  - eapply score_leb_trans;
      [apply (loopMin_le
                (λ i, minimax (place next i human) true ai human (0 + 1))
                (emptyCells next) PosInf j Hjin)|].
    rewrite minimax_human_wins; [done|done|].
    apply getWinner_sole; [done|]. rewrite (opponent_of human ai) by done.
    rewrite (hasLine_place_other next j human ai) by done.
    rewrite getWinner_none in Hopen. apply Hopen.
  - apply loopMin_ge; [done|]. intros i Hi.
    apply (minimax_lower ai human (place next i human) true (0 + 1)).
    pose proof (emptyCells_place next i human Hi). lia.
Qed.

(** An AI move that leaves the human no immediately winning move
    scores at least [-8]. *)
Lemma rootScore_blocked idx :
  blocks board ai human idx →
  score_leb (Fin (-8)) (rootScore board ai human idx) = true.
Proof.
  intros [Hidx%elem_of_emptyCells Hsafe].
  pose proof (after_ai_open idx Hidx) as Hopen.
  pose proof (after_ai_empties idx Hidx) as Hcount.
  set (next := place board idx ai) in *.
  unfold rootScore. fold next.
  destruct (everyNotNull next) eqn:Hfull.
  - rewrite minimax_draw; [done|done|]. by apply everyNotNull_full.
  - rewrite minimax_open by done.
    apply loopMin_ge; [done|]. intros j Hj.
    pose proof (emptyCells_place next j human Hj) as Hless.
    apply (minimax_lower_open ai human (place next j human) true (0 + 1));
      [|lia|lia].
    apply getWinner_none. intros m Hm.
    apply elem_of_emptyCells in Hj.
    destruct (either_mark m) as [-> | ->].
    + rewrite (hasLine_place_other next j human ai) in Hm by done.
      rewrite getWinner_none in Hopen. by apply (Hopen ai).
    + apply Hsafe, threatens_iff. by exists j.
Qed.

(** Every move of maximal score blocks, as soon as some move does. *)
Lemma bestMoves_block i idx :
  blocks board ai human i → idx ∈ bestMoves board ai human →
  blocks board ai human idx.
Proof.
  intros Hi Hidx.
  assert (idx ∈ emptyCells board) as Hempty
    by by apply elem_of_bestMoves in Hidx as [? _].
  split; [by apply elem_of_emptyCells|]. intros Hthreat.
  pose proof (rootScore_unblocked idx Hempty Hthreat) as Hlow.
  pose proof (rootScore_blocked i Hi) as Hhigh.
  assert (i ∈ emptyCells board) as Hiempty
    by (destruct Hi as [Hi _]; by apply elem_of_emptyCells).
  pose proof (bestMoves_maximal board ai human idx i Hidx Hiempty) as Hmax.
  rewrite Hlow in Hmax.
  pose proof (score_leb_trans _ _ _ Hhigh Hmax) as Hbad. done.
Qed.

End Blocking.

(** C6, as the code has it. On a 9-cell board without a completed line,
    where the AI mark has no immediately winning move, the human mark
    has one, and some AI move leaves the human mark without any,
    [getBestMove] returns such a blocking move, whatever the random
    draw. *)
Theorem selector_blocks_threat (board : Board) (ai human : Mark) (rnd : Q) :
  length board = 9 → (0 <= rnd)%Q → (rnd < 1)%Q →
  (∀ m, ¬ hasLine board m) →
  ¬ threatens board ai →
  threatens board human →
  (∃ i, blocks board ai human i) →
  ∃ idx, getBestMove board ai human rnd = MoveIndex idx
         ∧ blocks board ai human idx.
Proof.
  intros Hlen H0 H1 Hopen Hnowin Hthreat [i Hi].
  assert (ai ≠ human) as Hne by (by intros ->).
  destruct (getBestMove_cases board ai human rnd H0 H1)
    as [[Hnil _]|[_ (idx & Hres & Hin)]].
  - destruct Hi as [Hi%elem_of_emptyCells _]. rewrite Hnil in Hi.
    by apply elem_of_nil in Hi.
  - exists idx. split; [done|]. by eapply bestMoves_block.
Qed.

Lemma selector_blocks_threat_witness :
  length boardBlock = 9 ∧ (0 <= 1 # 3)%Q ∧ (1 # 3 < 1)%Q
  ∧ (∀ m, ¬ hasLine boardBlock m)
  ∧ ¬ threatens boardBlock O
  ∧ threatens boardBlock X
  ∧ (∃ i, blocks boardBlock O X i)
  ∧ ∃ idx, getBestMove boardBlock O X (1 # 3) = MoveIndex idx
           ∧ blocks boardBlock O X idx.
Proof.
  assert (length boardBlock = 9) as Hlen by reflexivity.
  assert (0 <= 1 # 3)%Q as H0 by (unfold Qle; simpl; lia).
  assert (1 # 3 < 1)%Q as H1 by (unfold Qlt; simpl; lia).
  assert (∀ m, ¬ hasLine boardBlock m) as Hopen
    by (intros []; compute_done).
  assert (¬ threatens boardBlock O) as Hnowin by compute_done.
  assert (threatens boardBlock X) as Hthreat by compute_done.
  assert (∃ i, blocks boardBlock O X i) as Hblock
    by (exists 2; compute_done).
  exact (conj Hlen (conj H0 (conj H1 (conj Hopen (conj Hnowin (conj Hthreat
           (conj Hblock
              (selector_blocks_threat boardBlock O X (1 # 3)
                 Hlen H0 H1 Hopen Hnowin Hthreat Hblock)))))))).
Defined.

(** C6 as stated fails where the AI can win at once: on
    [O,O,_, X,X,_, _,_,_] the human threatens the middle row and the AI
    move 5 blocks it, yet [getBestMove] returns 2, after which cell 5
    still completes the human's row. It also fails on a board that is
    already decided, where all root moves tie: on
    [O,O,O, X,X,_, _,_,_] the draw [1/2] selects 7, which blocks
    nothing. *)
Lemma selector_blocks_threat_counterexample :
  (length boardWin = 9
   ∧ threatens boardWin X
   ∧ blocks boardWin O X 5
   ∧ getBestMove boardWin O X 0 = MoveIndex 2
   ∧ ¬ blocks boardWin O X 2)
  ∧ (let decided := [Some O; Some O; Some O; Some X; Some X; None;
                     None; None; None] in
     length decided = 9
     ∧ threatens decided X
     ∧ blocks decided O X 5
     ∧ getBestMove decided O X (1 # 2) = MoveIndex 7
     ∧ ¬ blocks decided O X 7).
Proof.
  split.
  - split_and!; [reflexivity|compute_done|compute_done| |compute_done].
    vm_compute. reflexivity.
  - intros decided.
    split_and!; [reflexivity|compute_done|compute_done| |compute_done].
    vm_compute. reflexivity.
Qed.

(** ** Further properties of the evaluator and of the search *)

Lemma StronglySorted_seq (start len : nat) : StronglySorted lt (seq start len).
Proof.
  revert start. induction len as [|len IH]; intros start; simpl.
  - constructor.
  - constructor; [apply IH|]. apply Forall_forall. intros j Hj.
    apply elem_of_seq in Hj. lia.
Qed.

Lemma StronglySorted_filter_lt (P : nat → Prop) `{!∀ x, Decision (P x)}
  (l : list nat) :
  StronglySorted lt l → StronglySorted lt (filter P l).
Proof.
  induction 1 as [|x l Hl IH Hx]; [constructor|].
  rewrite filter_cons. destruct (decide (P x)); [|done].
  constructor; [done|]. rewrite Forall_forall in Hx |- *.
  intros j Hj. apply Hx. by apply list_elem_of_filter in Hj as [_ ?].
Qed.

(** X1. Every board, of any length, is in exactly one of three
    outcomes: a winner is reported together with a line of [LINES] that
    the winner holds, and it is not a draw; or nothing is reported, the
    board is full, and it is a draw; or nothing is reported, it is not a
    draw, and some cell is empty. *)
Theorem evaluate_outcomes (board : Board) :
  (∃ m l, l ∈ LINES ∧ completes board m l
          ∧ getWinner board = mkWinResult (Some m) (Some (triple l))
          ∧ isDraw board = false)
  ∨ (getWinner board = mkWinResult None None
     ∧ isDraw board = true ∧ emptyCells board = [])
  ∨ (getWinner board = mkWinResult None None
     ∧ isDraw board = false ∧ emptyCells board ≠ []).
Proof.
  unfold isDraw, getWinner.
  destruct (getWinner_loop_cases board LINES)
    as [[_ Hres]|(pre & l & post & m & Heq & _ & Hm & Hres)]; rewrite Hres.
  - right. simpl. destruct (everyNotNull board) eqn:Hfull.
    + left. split_and!; [done|done|].
      by apply full_emptyCells, everyNotNull_full.
    + right. split_and!; [done|done|].
      by apply everyNotNull_false_empties.
  - left. exists m, l. split_and!; [|done|done|].
    + rewrite Heq. apply elem_of_app. right. by left.
    + simpl. apply andb_false_r.
Qed.

(** X2. [emptyCells] returns exactly the indices whose cell is [null],
    each once and in increasing order. *)
Theorem emptyCells_sorted_exact (board : Board) :
  (∀ i, i ∈ emptyCells board ↔ board !! i = Some None)
  ∧ StronglySorted lt (emptyCells board)
  ∧ NoDup (emptyCells board).
Proof.
  split_and!.
  - intros i. apply elem_of_emptyCells.
  - apply StronglySorted_filter_lt, StronglySorted_seq.
  - apply NoDup_filter, NoDup_seq.
Qed.

Section SearchBounds.

Variables ai human : Mark.

Lemma score_max_lub hi a b :
  score_leb a hi = true → score_leb b hi = true →
  score_leb (score_max a b) hi = true.
Proof. unfold score_max. by destruct (score_leb a b). Qed.

(** An upper bound of the initial best and of every call is an upper
    bound of the maximising loop. *)
Lemma loopMax_le hi g empties best :
  score_leb best hi = true →
  (∀ idx, idx ∈ empties → score_leb (g idx) hi = true) →
  score_leb (loopTotal score_max g empties best) hi = true.
Proof.
  revert best. induction empties as [|j rest IH]; intros best Hb Hg; [done|].
  unfold loopTotal in *. simpl. apply IH.
  - apply score_max_lub; [done|]. apply Hg. by left.
  - intros idx Hidx. apply Hg. by right.
Qed.

(** No score is above that of an immediate AI win. *)
Lemma minimax_upper_by n : ∀ board isAiTurn depth,
  length (emptyCells board) = n → (depth + Z.of_nat n <= 10)%Z →
  score_leb (minimax board isAiTurn ai human depth) (Fin (10 - depth)) = true.
Proof.
  induction n as [|n IH]; intros board t d Hn Hd; rewrite minimax_eq; cbv zeta;
    repeat (case_match; [apply score_leb_Fin; lia|]).
  - match goal with H : everyNotNull _ = false |- _ =>
      apply everyNotNull_false_empties in H end.
    by destruct (emptyCells board).
  - assert (∀ m isAi idx, idx ∈ emptyCells board →
              score_leb (minimax (place board idx m) isAi ai human (d + 1))
                (Fin (10 - d)) = true)
      as Hchild.
    { intros m isAi idx Hidx.
      apply score_leb_trans with (Fin (10 - (d + 1))); [|apply score_leb_Fin; lia].
      apply IH; [|lia]. pose proof (emptyCells_place board idx m Hidx). lia. }
    destruct t.
    + apply loopMax_le; [done|]. intros idx Hidx. by apply Hchild.
    + destruct (emptyCells board) as [|idx rest] eqn:E; [done|].
      eapply score_leb_trans; [|apply (Hchild human true idx); left].
      apply (loopMin_le
               (λ i, minimax (place board i human) true ai human (d + 1))
               (idx :: rest) PosInf idx). left.
Qed.

Lemma minimax_upper board isAiTurn depth :
  (depth + Z.of_nat (length (emptyCells board)) <= 10)%Z →
  score_leb (minimax board isAiTurn ai human depth) (Fin (10 - depth)) = true.
Proof. by apply minimax_upper_by. Qed.

End SearchBounds.

(** X3. As long as the depth plus the number of empty cells is at most
    10, as for every position the search visits from a 9-cell board,
    the score lies between [depth - 10] and [10 - depth]; the score of a
    root move of a 9-cell board lies between -10 and 10. *)
Theorem minimax_score_range (ai human : Mark) :
  (∀ (board : Board) isAiTurn depth,
      (depth + Z.of_nat (length (emptyCells board)) <= 10)%Z →
      ∃ z, minimax board isAiTurn ai human depth = Fin z
           ∧ (depth - 10 <= z <= 10 - depth)%Z)
  ∧ (∀ (board : Board) idx,
      length board = 9 → idx ∈ emptyCells board →
      ∃ z, rootScore board ai human idx = Fin z ∧ (-10 <= z <= 10)%Z).
Proof.
  assert (∀ (board : Board) isAiTurn depth,
      (depth + Z.of_nat (length (emptyCells board)) <= 10)%Z →
      ∃ z, minimax board isAiTurn ai human depth = Fin z
           ∧ (depth - 10 <= z <= 10 - depth)%Z) as Hrange.
  { intros board isAiTurn depth Hd.
    pose proof (minimax_lower ai human board isAiTurn depth Hd) as Hlo.
    pose proof (minimax_upper ai human board isAiTurn depth Hd) as Hhi.
    destruct (minimax_Fin ai human board isAiTurn depth) as [z Hz].
    rewrite Hz in Hlo, Hhi. apply score_leb_Fin in Hlo, Hhi. by exists z. }
  split; [done|].
  intros board idx Hlen Hidx. unfold rootScore.
  pose proof (emptyCells_place board idx ai Hidx) as Hless.
  pose proof (length_emptyCells board) as Hle.
  destruct (Hrange (place board idx ai) false 0%Z) as (z & Hz & Hb); [lia|].
  exists z. split; [done|lia].
Qed.

Lemma minimax_score_range_witness :
  ∃ z, minimax boardBlock true O X 2 = Fin z ∧ (2 - 10 <= z <= 10 - 2)%Z.
Proof.
  apply (proj1 (minimax_score_range O X) boardBlock true 2%Z).
  vm_compute. discriminate.
Defined.

(** X4. The moves [getBestMove] can return, over all random draws, are
    exactly the empty cells whose root score is maximal among the empty
    cells; this holds for boards of any length. *)
Theorem getBestMove_exactly_maximal (board : Board) (ai human : Mark)
  (idx : nat) :
  (∃ rnd, (0 <= rnd)%Q ∧ (rnd < 1)%Q
          ∧ getBestMove board ai human rnd = MoveIndex idx)
  ↔ idx ∈ emptyCells board
    ∧ ∀ i, i ∈ emptyCells board →
           score_leb (rootScore board ai human i)
                     (rootScore board ai human idx) = true.
Proof.
  split.
  - intros (rnd & H0 & H1 & Hres).
    destruct (getBestMove_cases board ai human rnd H0 H1)
      as [[_ Hnull]|[_ (idx' & Hres' & Hin)]]; [congruence|].
    assert (idx' = idx) as -> by congruence.
    split; [by apply elem_of_bestMoves in Hin as [? _]|].
    intros i Hi. by apply bestMoves_maximal.
  - intros [Hidx Hmax].
    assert (idx ∈ bestMoves board ai human) as Hin.
    { apply elem_of_bestMoves. split; [done|].
      destruct (bestStep_fold board ai human (emptyCells board))
        as (_ & Hle & Hex).
      destruct Hex as (i & Hi & Hs).
      { intros Hnil. rewrite Hnil in Hidx. by apply elem_of_nil in Hidx. }
      apply score_leb_antisym; [by apply Hle|].
      unfold bestState. rewrite <- Hs. by apply Hmax. }
    apply list_elem_of_lookup_1 in Hin as [k Hk].
    destruct (randomIndex_onto (length (bestMoves board ai human)) k)
      as (rnd & H0 & H1 & Hr); [by eapply lookup_lt_Some|].
    exists rnd. split_and!; [done..|].
    unfold getBestMove. cbv zeta.
    destruct (emptyCells board) as [|e rest]; [by apply elem_of_nil in Hidx|].
    simpl Nat.eqb. cbv iota. rewrite Hr. unfold readMove.
    destruct (Z.ltb_spec (Z.of_nat k) 0) as [?|_]; [lia|].
    by rewrite Nat2Z.id, Hk.
Qed.

(** X5. On a 9-cell board without a completed line where the AI mark
    has an immediately winning move, [getBestMove] returns an
    immediately winning move, whatever the random draw. *)
Theorem getBestMove_takes_win (board : Board) (ai human : Mark) (rnd : Q) :
  length board = 9 → (0 <= rnd)%Q → (rnd < 1)%Q →
  (∀ m, ¬ hasLine board m) →
  threatens board ai →
  ∃ idx, getBestMove board ai human rnd = MoveIndex idx
         ∧ winsAt board ai idx.
Proof.
  intros Hlen H0 H1 Hopen [w Hw]%threatens_iff.
  assert (∀ i, i ∈ emptyCells board →
            ¬ hasLine (place board i ai) (opponent ai)) as Hother.
  { intros i Hi%elem_of_emptyCells.
    rewrite (hasLine_place_other board i ai (opponent ai));
      [apply Hopen|done|by destruct ai]. }
  assert (w ∈ emptyCells board) as Hwin
    by (destruct Hw as [Hw _]; by apply elem_of_emptyCells).
  assert (rootScore board ai human w = Fin 10) as Hten.
  { unfold rootScore. rewrite minimax_ai_wins; [done|].
    apply getWinner_sole; [by destruct Hw|by apply Hother]. }
  destruct (getBestMove_cases board ai human rnd H0 H1)
    as [[Hnil _]|[_ (idx & Hres & Hin)]].
  { rewrite Hnil in Hwin. by apply elem_of_nil in Hwin. }
  exists idx. split; [done|].
  pose proof (bestMoves_maximal board ai human idx w Hin Hwin) as Hmax.
  rewrite Hten in Hmax.
  assert (idx ∈ emptyCells board) as Hidx
    by by apply elem_of_bestMoves in Hin as [? _].
  destruct (decide (winsAt board ai idx)) as [|Hnot]; [done|]. exfalso.
  pose proof (emptyCells_place board idx ai Hidx) as Hless.
  pose proof (length_emptyCells board) as Hle.
  set (next := place board idx ai) in *.
  assert (winner (getWinner next) = None) as Hnone.
  { apply getWinner_none. intros m Hm.
    destruct (decide (m = ai)) as [->|Hne].
    - apply Hnot. split; [by apply elem_of_emptyCells|done].
    - apply (Hother idx Hidx). by rewrite (opponent_of ai m). }
  unfold rootScore in Hmax. fold next in Hmax.
  destruct (everyNotNull next) eqn:Hfull.
  - rewrite minimax_draw in Hmax; [done|done|by apply everyNotNull_full].
  - rewrite minimax_open in Hmax by done.
    pose proof (everyNotNull_false_empties next Hfull) as Hne.
    destruct (emptyCells next) as [|j rest] eqn:E; [done|].
    assert (j ∈ emptyCells next) as Hj by (rewrite E; left).
    pose proof (emptyCells_place next j human Hj) as Hless'.
    pose proof (loopMin_le
                  (λ i, minimax (place next i human) true ai human (0 + 1))
                  (j :: rest) PosInf j ltac:(left)) as Hmin.
    pose proof (minimax_upper ai human (place next j human) true (0 + 1)
                  ltac:(rewrite E in *; simpl in *; lia)) as Hup.
    pose proof (score_leb_trans _ _ _ Hmax (score_leb_trans _ _ _ Hmin Hup)).
    done.
Qed.

Lemma getBestMove_takes_win_witness :
  ∃ idx, getBestMove boardWin O X (1 # 2) = MoveIndex idx ∧ winsAt boardWin O idx.
Proof.
  apply (getBestMove_takes_win boardWin O X (1 # 2)).
  - reflexivity.
  - unfold Qle. simpl. lia.
  - unfold Qlt. simpl. lia.
  - intros []; compute_done.
  - compute_done.
Defined.

(** ** The game component *)

Section Component.

Import App.

Implicit Types (st : State) (e : Event) (es : list Event).

Lemma finalizeIfEnded_cases code (next : Board) st :
  (winner (getWinner next) = Some HUMAN
   ∧ finalizeIfEnded code next st
     = (true, setResult Win (setPromoCode (Some code)
                (setWinningLine (line (getWinner next)) st))))
  ∨ (winner (getWinner next) = Some AI
     ∧ finalizeIfEnded code next st
       = (true, setResult Loss (setWinningLine (line (getWinner next)) st)))
  ∨ (winner (getWinner next) = None ∧ isDraw next = true
     ∧ finalizeIfEnded code next st = (true, setResult Draw st))
  ∨ (winner (getWinner next) = None ∧ isDraw next = false
     ∧ emptyCells next ≠ []
     ∧ finalizeIfEnded code next st = (false, st)).
Proof.
  unfold finalizeIfEnded. cbv zeta.
  destruct (winner (getWinner next)) as [[]|] eqn:Hw.
  - left. by rewrite bool_decide_eq_true_2.
  - right. left. rewrite bool_decide_eq_false_2 by done.
    by rewrite bool_decide_eq_true_2.
  - rewrite !bool_decide_eq_false_2 by done.
    destruct (isDraw next) eqn:Hd; [by right; right; left|].
    right. right. right. split_and!; try done.
    apply everyNotNull_false_empties. unfold isDraw in Hd.
    rewrite Hw, bool_decide_eq_true_2, andb_true_r in Hd; done.
Qed.

Lemma chooseAiMove_cases d (cells : Board) (rMistake rPick : Q) :
  (0 <= rPick)%Q → (rPick < 1)%Q →
  (emptyCells cells = [] ∧ chooseAiMove d cells rMistake rPick = MoveNull)
  ∨ (emptyCells cells ≠ []
     ∧ ∃ idx, chooseAiMove d cells rMistake rPick = MoveIndex idx
              ∧ idx ∈ emptyCells cells).
Proof.
  intros H0 H1. unfold chooseAiMove. cbv zeta.
  assert (emptyCells cells ≠ [] →
          ∃ idx, getBestMove cells AI HUMAN rPick = MoveIndex idx
                 ∧ idx ∈ emptyCells cells) as Hbest.
  { intros Hne.
    destruct (getBestMove_cases cells AI HUMAN rPick H0 H1)
      as [[Hnil _]|[_ (idx & Hres & Hin)]]; [done|].
    exists idx. split; [done|]. by apply elem_of_bestMoves in Hin as [? _]. }
  destruct (emptyCells cells) as [|i rest] eqn:E; [by left|].
  right. split; [done|]. simpl Nat.eqb. cbv iota.
  destruct (Qlt_le_dec 0 (mistakeChance d)); [|by apply Hbest].
  destruct (Qlt_le_dec rMistake (mistakeChance d)); [|by apply Hbest].
  apply readMove_in, randomIndex_range; [done..|simpl; lia].
Qed.

Lemma chooseAiMove_smart (cells : Board) (rMistake rPick : Q) :
  chooseAiMove Smart cells rMistake rPick = getBestMove cells AI HUMAN rPick.
Proof.
  unfold chooseAiMove, getBestMove. cbv zeta.
  by destruct (length (emptyCells cells) =? 0).
Qed.

(** X6. [chooseAiMove] returns [null] exactly when the board has no
    empty cell, and otherwise the index of an empty cell, at every
    difficulty and whatever the random draws; at the difficulty
    ['smart'] it returns what [getBestMove] returns. *)
Theorem chooseAiMove_empty_cell (d : Difficulty) (cells : Board)
  (rMistake rPick : Q) :
  (0 <= rPick)%Q → (rPick < 1)%Q →
  (chooseAiMove d cells rMistake rPick = MoveNull ↔ emptyCells cells = [])
  ∧ (emptyCells cells ≠ [] →
     ∃ idx, chooseAiMove d cells rMistake rPick = MoveIndex idx
            ∧ cells !! idx = Some None)
  ∧ chooseAiMove Smart cells rMistake rPick = getBestMove cells AI HUMAN rPick.
Proof.
  intros H0 H1. split_and!.
  - destruct (chooseAiMove_cases d cells rMistake rPick H0 H1)
      as [[Hnil Hres]|[Hne (idx & Hres & _)]]; rewrite Hres; by split.
  - intros Hne.
    destruct (chooseAiMove_cases d cells rMistake rPick H0 H1)
      as [[Hnil _]|[_ (idx & Hres & Hin)]]; [done|].
    exists idx. split; [done|]. by apply elem_of_emptyCells.
  - apply chooseAiMove_smart.
Qed.

Lemma chooseAiMove_empty_cell_witness :
  chooseAiMove Soft boardBlock (1 # 2) (1 # 2) = MoveNull
  ↔ emptyCells boardBlock = [].
Proof.
  apply (chooseAiMove_empty_cell Soft boardBlock (1 # 2) (1 # 2)).
  - unfold Qle. simpl. lia.
  - unfold Qlt. simpl. lia.
Defined.

(** The board after a move event: unchanged, or one empty cell filled
    with the mover's mark. *)
Lemma onHumanMove_board code index st :
  board (onHumanMove code index st) = board st
  ∨ (board st !! index = Some None
     ∧ board (onHumanMove code index st) = place (board st) index HUMAN).
Proof.
  unfold onHumanMove. destruct (lockBoard st); [by left|].
  case_bool_decide as Hcell; [|by left]. right. split; [done|]. cbv zeta.
  by destruct (finalizeIfEnded_cases code (place (board st) index HUMAN)
              (setBoard (place (board st) index HUMAN) st))
    as [[_ ->]|[[_ ->]|[(_ & _ & ->)|(_ & _ & _ & ->)]]].
Qed.

Lemma aiTimeout_board code (rMistake rPick : Q) st :
  (0 <= rPick)%Q → (rPick < 1)%Q →
  board (aiTimeout code rMistake rPick st) = board st
  ∨ ∃ idx, board st !! idx = Some None
           ∧ board (aiTimeout code rMistake rPick st)
             = place (board st) idx AI.
Proof.
  intros H0 H1. unfold aiTimeout.
  destruct (negb (bool_decide (result st = Playing))); [by left|].
  destruct (negb (bool_decide (turn st = AiTurn))); [by left|].
  destruct (chooseAiMove_cases (difficulty st) (board st) rMistake rPick H0 H1)
    as [[_ ->]|[_ (idx & -> & Hin%elem_of_emptyCells)]]; [by left|].
  right. exists idx. split; [done|]. cbv zeta. simpl aiNext.
  by destruct (finalizeIfEnded_cases code (place (board st) idx AI) st)
    as [[_ ->]|[[_ ->]|[(_ & _ & ->)|(_ & _ & _ & ->)]]].
Qed.

(** X7. A move event, at any state, either leaves the board as it is
    or fills exactly one empty cell with the mover's mark; so the board
    keeps its length and a cell, once set, keeps its mark. *)
Theorem move_fills_one_empty_cell e m st :
  drawsValid e → mover e = Some m →
  (board (handle e st) = board st
   ∨ ∃ idx, board st !! idx = Some None
            ∧ board (handle e st) = place (board st) idx m)
  ∧ length (board (handle e st)) = length (board st)
  ∧ ∀ i m', board st !! i = Some (Some m') →
            board (handle e st) !! i = Some (Some m').
Proof.
  intros Hdraws Hm.
  assert (board (handle e st) = board st
          ∨ ∃ idx, board st !! idx = Some None
                   ∧ board (handle e st) = place (board st) idx m) as Hcases.
  { destruct e as [code index|code r1 r2| | | |]; try done;
      injection Hm as <-; simpl.
    - destruct (onHumanMove_board code index st) as [?|[? ?]]; eauto.
    - destruct Hdraws as (_ & H0 & H1). by apply aiTimeout_board. }
  split; [done|].
  destruct Hcases as [->|(idx & Hidx & ->)]; [done|]. split.
  - apply place_length.
  - intros i m' Hi. rewrite place_lookup_ne; [done|]. intros ->. congruence.
Qed.

Lemma move_fills_one_empty_cell_witness :
  board (handle (HumanMove "00000" 4) initial)
  = place (board initial) 4 X.
Proof.
  destruct (move_fills_one_empty_cell (HumanMove "00000" 4) X initial I eq_refl)
    as ([Hsame|(idx & Hidx & Hboard)] & _ & _).
  - vm_compute in Hsame. discriminate.
  - reflexivity.
Defined.

End Component.

Section Rounds.

Import App.

Implicit Types (st : State) (e : Event) (es : list Event).

Lemma run_snoc es e st : run (es ++ [e]) st = handle e (run es st).
Proof. unfold run. by rewrite fold_left_app. Qed.

(** A property kept by every admissible event holds along every run. *)
Lemma run_preserves (P : State → Prop) (ok : Event → Prop) es st :
  (∀ e s, ok e → P s → P (handle e s)) →
  Forall ok es → P st → P (run es st).
Proof.
  intros Hstep Hok Hst. induction es as [|e es IH] using rev_ind; [done|].
  apply Forall_app in Hok as [Hes He%Forall_inv].
  rewrite run_snoc. apply Hstep; [done|]. by apply IH.
Qed.

Lemma countMark_place (cells : Board) i m m' :
  cells !! i = Some None →
  countMark m (place cells i m')
  = countMark m cells + (if bool_decide (m = m') then 1 else 0).
Proof.
  unfold countMark, place. revert i.
  induction cells as [|c cells IH]; intros i Hi; [done|].
  destruct i as [|i]; simpl in *.
  - injection Hi as ->. rewrite !filter_cons.
    rewrite (decide_False (P := None = Some m)) by done.
    case_bool_decide as Hm.
    + subst m'. rewrite decide_True by done. simpl. lia.
    + rewrite decide_False by congruence. lia.
  - rewrite !filter_cons. destruct (decide (c = Some m)); simpl;
      rewrite (IH i Hi); lia.
Qed.

Lemma resetRound_invariant st :
  (0 <= failRetriesLeft st <= FAIL_RETRIES_MAX)%Z → invariant (resetRound st).
Proof.
  intros Hr. unfold invariant, consistent, lead. simpl.
  split_and!; try done; lia.
Qed.

Lemma onTryAgain_invariant st : invariant st → invariant (onTryAgain st).
Proof.
  intros Hinv. pose proof Hinv as (_ & Hr & _). unfold onTryAgain.
  destruct (failed st); [|by apply resetRound_invariant].
  destruct (Z.leb_spec (failRetriesLeft st) 0); [done|].
  apply resetRound_invariant. unfold FAIL_RETRIES_MAX in *. simpl. lia.
Qed.

(** After a move on an empty cell of a round in play, the invariant
    holds again, whoever moved. *)
Lemma finalize_invariant code st idx (m : Mark) base :
  invariant st → result st = Playing →
  board st !! idx = Some None →
  turn st = (if bool_decide (m = HUMAN) then HumanTurn else AiTurn) →
  (board base = place (board st) idx m ∨ board base = board st) →
  turn base = turn st → result base = result st →
  winningLine base = winningLine st → promoCode base = promoCode st →
  failRetriesLeft base = failRetriesLeft st →
  let '(ended, st1) := finalizeIfEnded code (place (board st) idx m) base in
  invariant
    (setBoard (place (board st) idx m)
       (if ended then st1
        else setTurn (if bool_decide (m = HUMAN) then AiTurn else HumanTurn) st1)).
Proof.
  intros (Hlen & Hr & Hcons & Hcount) Hplay Hidx Hturn _ Hbt Hbr Hbl Hbp Hbf.
  unfold consistent in Hcons. rewrite Hplay in Hcons.
  destruct Hcons as (_ & _ & Hline & Hpromo).
  unfold lead in Hcount. rewrite Hplay, Hturn in Hcount.
  pose proof (countMark_place (board st) idx HUMAN m Hidx) as HcX.
  pose proof (countMark_place (board st) idx AI m Hidx) as HcO.
  destruct (finalizeIfEnded_cases code (place (board st) idx m) base)
    as [[Hw ->]|[[Hw ->]|[(Hw & Hd & ->)|(Hw & Hd & Hne & ->)]]];
    unfold invariant; (split; [simpl; by rewrite place_length|]);
    (split; [simpl; by rewrite Hbf|]); split;
    unfold consistent, lead; simpl;
    rewrite ?Hbl, ?Hbp, ?Hbt, ?Hbr, ?Hturn, ?Hplay, ?HcX, ?HcO;
    try (by split_and!);
    unfold HUMAN, AI in *; destruct m; simpl in *; lia.
Qed.

Lemma onHumanMove_invariant code index st :
  invariant st → invariant (onHumanMove code index st).
Proof.
  intros Hinv. unfold onHumanMove.
  destruct (lockBoard st) eqn:Hlock; [done|].
  case_bool_decide as Hcell; [|done].
  unfold lockBoard in Hlock. apply orb_false_elim in Hlock as [Hp Ht].
  apply negb_false_iff, bool_decide_eq_true in Hp, Ht.
  pose proof (finalize_invariant code st index HUMAN
                (setBoard (place (board st) index HUMAN) st)
                Hinv Hp Hcell Ht) as Hfin.
  cbv zeta. simpl in Hfin.
  destruct (finalizeIfEnded code (place (board st) index HUMAN)
              (setBoard (place (board st) index HUMAN) st))
    as [ended st1] eqn:E.
  specialize (Hfin (or_introl eq_refl) eq_refl eq_refl eq_refl eq_refl eq_refl).
  destruct (finalizeIfEnded_cases code (place (board st) index HUMAN)
              (setBoard (place (board st) index HUMAN) st))
    as [[_ E']|[[_ E']|[(_ & _ & E')|(_ & _ & _ & E')]]];
    rewrite E' in E; injection E as <- <-; exact Hfin.
Qed.

Lemma aiTimeout_invariant code (rMistake rPick : Q) st :
  (0 <= rPick)%Q → (rPick < 1)%Q →
  invariant st → invariant (aiTimeout code rMistake rPick st).
Proof.
  intros H0 H1 Hinv. unfold aiTimeout.
  destruct (bool_decide (result st = Playing)) eqn:Hp; [|done].
  destruct (bool_decide (turn st = AiTurn)) eqn:Ht; [|done]. simpl.
  apply bool_decide_eq_true in Hp, Ht.
  destruct (chooseAiMove_cases (difficulty st) (board st) rMistake rPick H0 H1)
    as [[_ ->]|[_ (idx & -> & Hin%elem_of_emptyCells)]]; [done|].
  cbv zeta. simpl aiNext.
  pose proof (finalize_invariant code st idx AI st Hinv Hp Hin Ht
                (or_intror eq_refl) eq_refl eq_refl eq_refl eq_refl eq_refl)
    as Hfin.
  by destruct (finalizeIfEnded code (place (board st) idx AI) st).
Qed.

Lemma handle_invariant e st :
  drawsValid e → invariant st → invariant (handle e st).
Proof.
  intros Hdraws Hinv. destruct e as [code index|code r1 r2| | |d|parsed]; simpl.
  - by apply onHumanMove_invariant.
  - destruct Hdraws as (_ & H0 & H1). by apply aiTimeout_invariant.
  - by apply onTryAgain_invariant.
  - unfold onResetClick. destruct (failed st) eqn:Hf.
    + by apply onTryAgain_invariant.
    + destruct Hinv as (_ & Hr & _). by apply resetRound_invariant.
  - destruct Hinv as (Hlen & Hr & Hcons & Hcount).
    unfold invariant, consistent, lead in *. simpl. done.
  - destruct Hinv as (Hlen & Hr & Hcons & Hcount).
    assert (∀ n, (0 <= n <= FAIL_RETRIES_MAX)%Z →
                 invariant (setFailRetriesLeft n st)) as Hset.
    { intros n Hn. unfold invariant, consistent, lead in *. simpl. done. }
    unfold restoreRetries. destruct parsed as [n|]; [|by apply Hset].
    destruct (0 <=? n)%Z eqn:Hlo, (n <=? FAIL_RETRIES_MAX)%Z eqn:Hhi; simpl;
      try (by apply Hset).
    apply Hset. apply Z.leb_le in Hlo, Hhi. lia.
Qed.

Lemma initial_invariant : invariant initial.
Proof. unfold invariant, consistent, lead. simpl. by split_and!. Qed.

Lemma run_invariant es :
  Forall drawsValid es → invariant (run es initial).
Proof.
  intros Hes.
  apply (run_preserves invariant drawsValid es initial);
    [intros; by apply handle_invariant|done|apply initial_invariant].
Qed.

End Rounds.

Section Play.

Import App.

Implicit Types (st : State) (e : Event) (es : list Event).

(** X8. In every state the component reaches from its first render the
    board has 9 cells and the marks alternate: while the round is in
    play the human has as many marks as the AI on the human's turn and
    one more on the AI's turn, and never fewer nor two more. *)
Theorem marks_alternate es :
  Forall drawsValid es →
  let st := run es initial in
  length (board st) = 9
  ∧ (result st = Playing → turn st = HumanTurn →
     countMark HUMAN (board st) = countMark AI (board st))
  ∧ (result st = Playing → turn st = AiTurn →
     countMark HUMAN (board st) = countMark AI (board st) + 1)
  ∧ countMark AI (board st) ≤ countMark HUMAN (board st)
    ≤ countMark AI (board st) + 1.
Proof.
  intros Hes st. destruct (run_invariant es Hes) as (Hlen & _ & _ & Hcount).
  fold st in Hlen, Hcount. unfold lead in Hcount.
  split_and!; [done|..].
  - intros Hp Ht. rewrite Hp, Ht in Hcount. lia.
  - intros Hp Ht. rewrite Hp, Ht in Hcount. lia.
  - destruct (result st), (turn st); lia.
  - destruct (result st), (turn st); lia.
Qed.

Lemma marks_alternate_witness :
  let st := run [HumanMove "00000" 4; AiTimeout "00000" (1 # 2) (1 # 2);
                 HumanMove "00000" 0] initial in
  length (board st) = 9
  ∧ (result st = Playing → turn st = HumanTurn →
     countMark HUMAN (board st) = countMark AI (board st))
  ∧ (result st = Playing → turn st = AiTurn →
     countMark HUMAN (board st) = countMark AI (board st) + 1)
  ∧ countMark AI (board st) ≤ countMark HUMAN (board st)
    ≤ countMark AI (board st) + 1.
Proof.
  apply (marks_alternate
           [HumanMove "00000" 4; AiTimeout "00000" (1 # 2) (1 # 2);
            HumanMove "00000" 0]).
  repeat constructor; unfold Qle, Qlt; simpl; lia.
Defined.

(** X9. In every state the component reaches, [result] says what the
    evaluator says of the board: ['playing'] exactly when there is no
    winner and some cell is empty, ['win'] exactly when the human mark
    is the reported winner, ['loss'] exactly when the AI mark is, and
    ['draw'] exactly when [isDraw] holds; a promo code is present
    exactly after a win, and the stored winning line is the reported
    line. *)
Theorem result_matches_board es :
  Forall drawsValid es →
  let st := run es initial in
  (result st = Playing
   ↔ winner (getWinner (board st)) = None ∧ emptyCells (board st) ≠ [])
  ∧ (result st = Win ↔ winner (getWinner (board st)) = Some HUMAN)
  ∧ (result st = Loss ↔ winner (getWinner (board st)) = Some AI)
  ∧ (result st = Draw ↔ isDraw (board st) = true)
  ∧ (is_Some (promoCode st) ↔ result st = Win)
  ∧ winningLine st = line (getWinner (board st)).
Proof.
  intros Hes st. destruct (run_invariant es Hes) as (_ & _ & Hcons & _).
  fold st in Hcons. unfold consistent in Hcons.
  assert (isDraw (board st) = true →
          winner (getWinner (board st)) = None ∧ emptyCells (board st) = [])
    as Hdraw.
  { unfold isDraw. intros [Hfull Hw%bool_decide_eq_true]%andb_true_iff.
    split; [done|]. by apply full_emptyCells, everyNotNull_full. }
  assert (winner (getWinner (board st)) = None →
          line (getWinner (board st)) = None) as Hline.
  { intros Hw. unfold getWinner in *.
    destruct (getWinner_loop_cases (board st) LINES)
      as [[_ Hg]|(pre & l & post & m & _ & _ & _ & Hg)];
      rewrite Hg in Hw |- *; done. }
  destruct (result st) eqn:Hres;
    [destruct Hcons as (Hw & Hne & Hl & Hp)
    |destruct Hcons as (Hw & Hl & Hp)
    |destruct Hcons as (Hw & Hl & Hp)
    |destruct Hcons as (Hd & Hl & Hp); destruct (Hdraw Hd) as [Hw Hnil]];
    rewrite ?Hw, ?Hp, ?Hl, ?Hline by done;
    split_and!; try done; split; try done;
    intros H;
    first [by destruct H|apply Hdraw in H as [? ?]; congruence].
Qed.

Lemma result_matches_board_witness :
  let st := run [HumanMove "00000" 0; AiTimeout "00000" (1 # 2) (1 # 2)]
              initial in
  result st = Playing
  ↔ winner (getWinner (board st)) = None ∧ emptyCells (board st) ≠ [].
Proof.
  apply (result_matches_board
           [HumanMove "00000" 0; AiTimeout "00000" (1 # 2) (1 # 2)]).
  repeat constructor; unfold Qle, Qlt; simpl; lia.
Defined.

(** X10. While the round is in play, in a state the component reaches,
    a click of the human on an empty cell puts the human mark there and
    the AI's timeout puts the AI mark on an empty cell; either move
    ends the round or hands the turn to the other side. *)
Theorem moves_hand_over_turn es :
  Forall drawsValid es →
  let st := run es initial in
  result st = Playing →
  (∀ code index,
      turn st = HumanTurn → board st !! index = Some None →
      let st' := onHumanMove code index st in
      board st' = place (board st) index HUMAN
      ∧ (result st' ≠ Playing ∨ turn st' = AiTurn))
  ∧ (∀ code (rMistake rPick : Q),
      turn st = AiTurn → (0 <= rPick)%Q → (rPick < 1)%Q →
      let st' := aiTimeout code rMistake rPick st in
      ∃ idx, board st !! idx = Some None
             ∧ board st' = place (board st) idx AI
             ∧ (result st' ≠ Playing ∨ turn st' = HumanTurn)).
Proof.
  intros Hes st Hplay.
  destruct (run_invariant es Hes) as (_ & _ & Hcons & _).
  fold st in Hcons. unfold consistent in Hcons. rewrite Hplay in Hcons.
  destruct Hcons as (_ & Hne & _). split.
  - intros code index Hturn Hcell. unfold onHumanMove, lockBoard.
    rewrite !bool_decide_eq_true_2 by done. simpl. cbv zeta.
    destruct (finalizeIfEnded_cases code (place (board st) index HUMAN)
                (setBoard (place (board st) index HUMAN) st))
      as [[_ ->]|[[_ ->]|[(_ & _ & ->)|(_ & _ & _ & ->)]]]; simpl;
      (split; [done|]); try (by left); by right.
  - intros code rMistake rPick Hturn H0 H1. unfold aiTimeout.
    rewrite !bool_decide_eq_true_2 by done. simpl.
    destruct (chooseAiMove_cases (difficulty st) (board st) rMistake rPick H0 H1)
      as [[Hnil _]|[_ (idx & -> & Hin%elem_of_emptyCells)]]; [done|].
    exists idx. split; [done|]. cbv zeta. simpl aiNext.
    destruct (finalizeIfEnded_cases code (place (board st) idx AI) st)
      as [[_ ->]|[[_ ->]|[(_ & _ & ->)|(_ & _ & _ & ->)]]]; simpl;
      (split; [done|]); try (by left); by right.
Qed.

Lemma moves_hand_over_turn_witness :
  let st := run [HumanMove "00000" 4] initial in
  ∃ idx, board st !! idx = Some None
         ∧ board (aiTimeout "00000" (1 # 2) (1 # 2) st)
           = place (board st) idx AI
         ∧ (result (aiTimeout "00000" (1 # 2) (1 # 2) st) ≠ Playing
            ∨ turn (aiTimeout "00000" (1 # 2) (1 # 2) st) = HumanTurn).
Proof.
  destruct (moves_hand_over_turn [HumanMove "00000" 4]) as [_ Hai].
  - repeat constructor.
  - reflexivity.
  - apply (Hai "00000" (1 # 2) (1 # 2)).
    + reflexivity.
    + unfold Qle. simpl. lia.
    + unfold Qlt. simpl. lia.
Defined.

(** X11. Once a round has ended, at any state, nothing but "try again"
    and "reset" touches it: the board, the turn, the result, the
    winning line and the promo code stay as they are along every run
    without these two events. *)
Theorem ended_round_is_frozen es st :
  result st ≠ Playing → Forall (λ e, ¬ restarts e) es →
  let st' := run es st in
  board st' = board st ∧ turn st' = turn st ∧ result st' = result st
  ∧ winningLine st' = winningLine st ∧ promoCode st' = promoCode st.
Proof.
  intros Hended Hes.
  apply (run_preserves
           (λ s, board s = board st ∧ turn s = turn st ∧ result s = result st
                 ∧ winningLine s = winningLine st ∧ promoCode s = promoCode st)
           (λ e, ¬ restarts e) es st); [|done|done].
  intros e s Hno (Hb & Ht & Hr & Hl & Hp).
  assert (result s ≠ Playing) as Hs by by rewrite Hr.
  destruct e as [code index|code r1 r2| | |d|parsed]; simpl in *; try done.
  - unfold onHumanMove, lockBoard.
    by rewrite (bool_decide_eq_false_2 (result s = Playing)).
  - unfold aiTimeout.
    by rewrite (bool_decide_eq_false_2 (result s = Playing)).
  - unfold restoreRetries.
    destruct parsed as [n|]; [|done].
    by destruct ((0 <=? n)%Z && (n <=? FAIL_RETRIES_MAX)%Z).
Qed.

Lemma ended_round_is_frozen_witness :
  let st := setResult Draw initial in
  let st' := run [HumanMove "00000" 3; AiTimeout "00000" 0 0] st in
  board st' = board st ∧ turn st' = turn st ∧ result st' = result st
  ∧ winningLine st' = winningLine st ∧ promoCode st' = promoCode st.
Proof.
  apply (ended_round_is_frozen [HumanMove "00000" 3; AiTimeout "00000" 0 0]
           (setResult Draw initial)).
  - discriminate.
  - repeat constructor; simpl; tauto.
Defined.

Lemma onTryAgain_retries st :
  (failRetriesLeft (onTryAgain st) <= failRetriesLeft st)%Z.
Proof.
  unfold onTryAgain. destruct (failed st); [|done].
  destruct (Z.leb_spec (failRetriesLeft st) 0); [done|].
  simpl. unfold FAIL_RETRIES_MAX. lia.
Qed.

(** X12. The retries left stay between 0 and 3 in every state the
    component reaches, and, from any state, they never grow along a run
    in which the stored value is not reloaded. *)
Theorem retries_bounded_and_spent :
  (∀ es, Forall drawsValid es →
         (0 <= failRetriesLeft (run es initial) <= 3)%Z)
  ∧ (∀ es st, Forall (λ e, ¬ reloads e) es →
              (failRetriesLeft (run es st) <= failRetriesLeft st)%Z).
Proof.
  split.
  - intros es Hes. by destruct (run_invariant es Hes) as (_ & Hr & _).
  - intros es st Hes.
    apply (run_preserves
             (λ s, (failRetriesLeft s <= failRetriesLeft st)%Z)
             (λ e, ¬ reloads e) es st); [|done|done].
    intros e s Hno Hle.
    destruct e as [code index|code r1 r2| | |d|parsed]; simpl in *; try done.
    + unfold onHumanMove. destruct (lockBoard s); [done|].
      case_bool_decide; [|done]. cbv zeta.
      by destruct (finalizeIfEnded_cases code (place (board s) index HUMAN)
                  (setBoard (place (board s) index HUMAN) s))
        as [[_ ->]|[[_ ->]|[(_ & _ & ->)|(_ & _ & _ & ->)]]].
    + unfold aiTimeout.
      destruct (negb (bool_decide (result s = Playing))); [done|].
      destruct (negb (bool_decide (turn s = AiTurn))); [done|].
      destruct (chooseAiMove (difficulty s) (board s) r1 r2) as [| |idx] eqn:E;
        [done|..]; cbv zeta;
        match goal with
        | |- context [finalizeIfEnded ?c ?b ?s0] =>
            destruct (finalizeIfEnded_cases c b s0)
              as [[_ ->]|[[_ ->]|[(_ & _ & ->)|(_ & _ & _ & ->)]]]
        end; done.
    + pose proof (onTryAgain_retries s). lia.
    + unfold onResetClick. destruct (failed s); [|done].
      pose proof (onTryAgain_retries s). lia.
Qed.

Lemma retries_bounded_and_spent_witness :
  (failRetriesLeft (run [TryAgain; ResetClick] (setResult Loss initial))
   <= failRetriesLeft (setResult Loss initial))%Z.
Proof.
  apply (proj2 retries_bounded_and_spent [TryAgain; ResetClick]
           (setResult Loss initial)).
  repeat constructor; simpl; tauto.
Defined.

(** X13. After a loss or a draw with no retry left the round cannot be
    restarted: from any such state, along every run that does not
    reload the stored retries, "try again" and "reset" included, the
    board, the turn, the result, the winning line, the promo code and
    the retries left stay as they are. *)
Theorem no_retry_no_restart es st :
  failed st = true → (failRetriesLeft st <= 0)%Z →
  Forall (λ e, ¬ reloads e) es →
  let st' := run es st in
  board st' = board st ∧ turn st' = turn st ∧ result st' = result st
  ∧ winningLine st' = winningLine st ∧ promoCode st' = promoCode st
  ∧ failRetriesLeft st' = failRetriesLeft st.
Proof.
  intros Hfailed Hnone Hes.
  assert (result st ≠ Playing) as Hended.
  { unfold failed in Hfailed. intros Hp. rewrite Hp in Hfailed. done. }
  assert (∃ d, run es st = setDifficulty d st) as [d ->]; [|done].
  apply (run_preserves (λ s, ∃ d, s = setDifficulty d st)
           (λ e, ¬ reloads e) es st); [|done|].
  - intros e s Hno [d ->].
    assert (onTryAgain (setDifficulty d st) = setDifficulty d st) as Htry.
    { unfold onTryAgain. change (failed (setDifficulty d st)) with (failed st).
      rewrite Hfailed. simpl failRetriesLeft.
      by destruct (Z.leb_spec (failRetriesLeft st) 0); [|lia]. }
    destruct e as [code index|code r1 r2| | |d'|parsed]; simpl in *; try done.
    + exists d. unfold onHumanMove, lockBoard. simpl result.
      by rewrite (bool_decide_eq_false_2 (result st = Playing)).
    + exists d. unfold aiTimeout. simpl result.
      by rewrite (bool_decide_eq_false_2 (result st = Playing)).
    + by exists d.
    + exists d. unfold onResetClick.
      change (failed (setDifficulty d st)) with (failed st).
      by rewrite Hfailed.
    + by exists d'.
  - exists (difficulty st). by destruct st.
Qed.

Lemma no_retry_no_restart_witness :
  let st := setFailRetriesLeft 0 (setResult Loss initial) in
  let st' := run [TryAgain; HumanMove "00000" 4; ResetClick] st in
  board st' = board st ∧ turn st' = turn st ∧ result st' = result st
  ∧ winningLine st' = winningLine st ∧ promoCode st' = promoCode st
  ∧ failRetriesLeft st' = failRetriesLeft st.
Proof.
  apply (no_retry_no_restart [TryAgain; HumanMove "00000" 4; ResetClick]
           (setFailRetriesLeft 0 (setResult Loss initial))).
  - reflexivity.
  - reflexivity.
  - repeat constructor; simpl; tauto.
Defined.

End Play.

Section Unbeaten.

Import App.

Implicit Types (st : State) (e : Event) (es : list Event).

(** What [holds] says about one move. *)
Lemma holds_step fuel (aiToMove : bool) (cells : Board) idx :
  holds fuel aiToMove cells = true →
  idx ∈ (if aiToMove then bestMoves cells AI HUMAN else emptyCells cells) →
  let next := place cells idx (if aiToMove then AI else HUMAN) in
  winner (getWinner next) ≠ Some HUMAN
  ∧ (winner (getWinner next) = None → isDraw next = false →
     ∃ fuel', holds fuel' (negb aiToMove) next = true).
Proof.
  intros Hholds Hidx next. destruct fuel as [|fuel']; [done|].
  cbn [holds] in Hholds. rewrite forallb_forall in Hholds.
  specialize (Hholds idx (proj1 (list_elem_of_In _ _) Hidx)).
  cbv zeta in Hholds. fold next in Hholds.
  destruct (bool_decide (winner (getWinner next) = Some HUMAN)) eqn:Hw;
    [done|].
  apply bool_decide_eq_false in Hw. split; [done|].
  intros Hnone Hdraw. rewrite Hnone, Hdraw in Hholds.
  rewrite bool_decide_eq_false_2 in Hholds by done. by exists fuel'.
Qed.

(** The human cannot win from the empty board. *)
Lemma holds_initial : holds 9 false (replicate 9 None) = true.
Proof. vm_compute. reflexivity. Qed.

Lemma resetRound_unbeaten st : difficulty st = Smart → unbeaten (resetRound st).
Proof.
  intros Hd. split_and!; [done|done|]. intros _. exists 9.
  apply holds_initial.
Qed.

Lemma handle_unbeaten e st :
  drawsValid e → keepsDifficulty e → unbeaten st → unbeaten (handle e st).
Proof.
  intros Hdraws Hkeep Hun. pose proof Hun as (Hnot & Hsmart & Hsafe).
  destruct e as [code index|code r1 r2| | |d|parsed]; simpl in *; try done.
  - unfold onHumanMove. destruct (lockBoard st) eqn:Hlock; [done|].
    destruct (bool_decide (board st !! index = Some None)) eqn:Hcell; [|done].
    apply bool_decide_eq_true in Hcell.
    unfold lockBoard in Hlock. apply orb_false_elim in Hlock as [Hp Ht].
    apply negb_false_iff, bool_decide_eq_true in Hp, Ht.
    destruct (Hsafe Hp) as [fuel Hholds].
    rewrite Ht, bool_decide_eq_false_2 in Hholds by done.
    destruct (holds_step fuel false (board st) index Hholds) as [Hw Hnext];
      [by apply elem_of_emptyCells|].
    cbv zeta.
    destruct (finalizeIfEnded_cases code (place (board st) index HUMAN)
                (setBoard (place (board st) index HUMAN) st))
      as [[Hw' ->]|[[_ ->]|[(_ & _ & ->)|(Hnone & Hdraw & _ & ->)]]];
      [done|by split_and!|by split_and!|].
    split_and!; [done|done|]. intros _. simpl. by apply Hnext.
  - unfold aiTimeout.
    destruct (bool_decide (result st = Playing)) eqn:Hp; [|done].
    destruct (bool_decide (turn st = AiTurn)) eqn:Ht; [|done]. simpl.
    apply bool_decide_eq_true in Hp, Ht.
    destruct Hdraws as (_ & H0 & H1).
    rewrite Hsmart, chooseAiMove_smart.
    destruct (getBestMove_cases (board st) AI HUMAN r2 H0 H1)
      as [[_ ->]|[_ (idx & -> & Hin)]]; [done|].
    destruct (Hsafe Hp) as [fuel Hholds].
    destruct (holds_step fuel true (board st) idx Hholds Hin) as [Hw Hnext].
    cbv zeta. simpl aiNext.
    destruct (finalizeIfEnded_cases code (place (board st) idx AI) st)
      as [[Hw' ->]|[[_ ->]|[(_ & _ & ->)|(Hnone & Hdraw & _ & ->)]]];
      [done|by split_and!|by split_and!|].
    split_and!; [done|done|]. intros _. simpl. by apply Hnext.
  - unfold onTryAgain. destruct (failed st); [|by apply resetRound_unbeaten].
    destruct (failRetriesLeft st <=? 0)%Z; [done|].
    by apply resetRound_unbeaten.
  - unfold onResetClick, onTryAgain.
    destruct (failed st); [|by apply resetRound_unbeaten].
    destruct (failRetriesLeft st <=? 0)%Z; [done|].
    by apply resetRound_unbeaten.
  - unfold restoreRetries. destruct parsed as [n|]; [|done].
    by destruct ((0 <=? n)%Z && (n <=? FAIL_RETRIES_MAX)%Z).
Qed.

(** X14. At the difficulty ['smart'] the human never wins: from the
    first render with the difficulty set to ['smart'], along every run
    of events that does not change the difficulty, whatever cells the
    human clicks and whatever the random draws, the result is never
    ['win'] and no promo code is issued. *)
Theorem smart_ai_is_unbeaten es :
  Forall drawsValid es → Forall keepsDifficulty es →
  let st := run es (setDifficulty Smart initial) in
  result st ≠ Win ∧ promoCode st = None
  ∧ winner (getWinner (board st)) ≠ Some HUMAN.
Proof.
  intros Hdraws Hkeep st.
  assert (Forall (λ e, drawsValid e ∧ keepsDifficulty e) es) as Hboth.
  { apply Forall_forall. intros e He.
    rewrite Forall_forall in Hdraws, Hkeep. split; auto. }
  assert (unbeaten st) as (Hnot & _ & _).
  { apply (run_preserves unbeaten (λ e, drawsValid e ∧ keepsDifficulty e));
      [intros e s [? ?]; by apply handle_unbeaten|done|].
    split_and!; [done|done|]. intros _. exists 9. apply holds_initial. }
  assert (invariant st) as (_ & _ & Hcons & _).
  { apply (run_preserves invariant drawsValid);
      [intros; by apply handle_invariant|done|].
    apply (handle_invariant (SetDifficulty Smart) initial I initial_invariant). }
  unfold consistent in Hcons.
  destruct (result st); [| |by destruct Hcons as (-> & _ & ->)|].
  - by destruct Hcons as (-> & _ & _ & ->).
  - done.
  - destruct Hcons as (Hd & _ & ->). split_and!; [done|done|].
    unfold isDraw in Hd. apply andb_true_iff in Hd as [_ Hw%bool_decide_eq_true].
    by rewrite Hw.
Qed.

Lemma smart_ai_is_unbeaten_witness :
  let st := run [HumanMove "00000" 0; AiTimeout "00000" (1 # 2) (1 # 2);
                 HumanMove "00000" 8; AiTimeout "00000" (1 # 2) (1 # 2)]
              (setDifficulty Smart initial) in
  result st ≠ Win ∧ promoCode st = None
  ∧ winner (getWinner (board st)) ≠ Some HUMAN.
Proof.
  apply (smart_ai_is_unbeaten
           [HumanMove "00000" 0; AiTimeout "00000" (1 # 2) (1 # 2);
            HumanMove "00000" 8; AiTimeout "00000" (1 # 2) (1 # 2)]).
  - repeat constructor; unfold Qle, Qlt; simpl; lia.
  - repeat constructor.
Defined.

End Unbeaten.

(** ** The Telegram link server *)

Section Links.

Import Server.

Implicit Types (linkMap : gmap string Link) (rec : Link) (code : string).

Lemma cleanupLinks_lookup now linkMap code :
  cleanupLinks now linkMap !! code
  = linkMap !! code ≫= λ rec, if decide (expired now rec) then None else Some rec.
Proof.
  unfold cleanupLinks.
  set (f := λ (c : string) (rec : Link) (m : gmap string Link),
              if decide (expired now rec) then delete c m else m).
  assert (∀ m0 m c,
            map_fold f m0 m !! c
            = match m !! c with
              | Some rec => if decide (expired now rec) then None else m0 !! c
              | None => m0 !! c
              end) as Hfold.
  { intros m0 m. apply (map_fold_weak_ind (λ r m, ∀ c,
      r !! c = match m !! c with
               | Some rec => if decide (expired now rec) then None else m0 !! c
               | None => m0 !! c
               end)); clear m.
    - intros c. by rewrite lookup_empty.
    - intros i x m r Hi IH c. unfold f.
      destruct (decide (i = c)) as [->|Hne].
      + rewrite lookup_insert_eq. specialize (IH c). rewrite Hi in IH.
        destruct (decide (expired now x)); [by rewrite lookup_delete_eq|done].
      + rewrite lookup_insert_ne by done. rewrite <- IH.
        destruct (decide (expired now x)); [by rewrite lookup_delete_ne|done]. }
  rewrite Hfold. by destruct (linkMap !! code) as [rec|].
Qed.

Lemma cleanupLinks_lookup_Some now linkMap code rec :
  cleanupLinks now linkMap !! code = Some rec
  ↔ linkMap !! code = Some rec ∧ (now - createdAt rec <= LINK_TTL_MS)%Z.
Proof.
  rewrite cleanupLinks_lookup.
  destruct (linkMap !! code) as [rec'|]; simpl; [|by split; [|intros []]].
  unfold expired. destruct (decide (now - createdAt rec' > LINK_TTL_MS)%Z).
  - split; [done|]. intros [[= ->] ?]. lia.
  - split; [intros [= ->]; split; [done|lia]|by intros [? _]].
Qed.

(** X15. [cleanupLinks] keeps exactly the records that are at most one
    hour old, as they are; and a cleanup at a later time makes an
    earlier one redundant, so that cleaning twice at the same time
    changes nothing more. *)
Theorem cleanupLinks_keeps_fresh (now : Z) linkMap :
  (∀ code rec,
      cleanupLinks now linkMap !! code = Some rec
      ↔ linkMap !! code = Some rec ∧ (now - createdAt rec <= LINK_TTL_MS)%Z)
  ∧ (∀ later, (now <= later)%Z →
       cleanupLinks later (cleanupLinks now linkMap)
       = cleanupLinks later linkMap)
  ∧ cleanupLinks now (cleanupLinks now linkMap) = cleanupLinks now linkMap.
Proof.
  assert (∀ later, (now <= later)%Z →
       cleanupLinks later (cleanupLinks now linkMap)
       = cleanupLinks later linkMap) as Hlater.
  { intros later Hle. apply map_eq. intros code.
    rewrite !cleanupLinks_lookup.
    destruct (linkMap !! code) as [rec|]; [|done]. simpl.
    destruct (decide (expired now rec)) as [Hnow|Hnow]; simpl.
    - rewrite decide_True; [done|]. unfold expired in *. lia.
    - done. }
  split_and!; [|done|by apply Hlater].
  intros code rec. apply cleanupLinks_lookup_Some.
Qed.

Lemma cleanupLinks_keeps_fresh_witness :
  cleanupLinks 7200001 (cleanupLinks 5000000 {[ "XOAB"%string := mkLink 3600000 None ]})
  = cleanupLinks 7200001 {[ "XOAB"%string := mkLink 3600000 None ]}.
Proof.
  apply (proj1 (proj2 (cleanupLinks_keeps_fresh 5000000
                         {[ "XOAB"%string := mkLink 3600000 None ]}))).
  lia.
Defined.

End Links.

Section Polling.

Import Server.

Implicit Types (linkMap : gmap string Link) (rec : Link) (code : string).

Variable toString : Z → string.
Variable extractStartCode : string → option string.

#[local] Abbreviation processUpdate :=
  (Server.processUpdate toString extractStartCode).
#[local] Abbreviation processUpdates :=
  (Server.processUpdates toString extractStartCode).
#[local] Abbreviation pollTelegramUpdates :=
  (Server.pollTelegramUpdates toString extractStartCode).
#[local] Abbreviation binding := (Server.binding toString extractStartCode).
#[local] Abbreviation lastChat := (Server.lastChat toString extractStartCode).
#[local] Abbreviation relinked := (Server.relinked toString extractStartCode).

Implicit Types (s : State) (upd : Update) (updates : list Update).

Lemma processUpdates_snoc updates upd s :
  processUpdates (updates ++ [upd]) s
  = processUpdate (processUpdates updates s) upd.
Proof. unfold Server.processUpdates. by rewrite fold_left_app. Qed.

Lemma lastChat_snoc code updates upd :
  lastChat code (updates ++ [upd])
  = match binding upd with
    | Some (c, chat) =>
        if decide (c = code) then Some chat else lastChat code updates
    | None => lastChat code updates
    end.
Proof.
  unfold Server.lastChat. rewrite omap_app. simpl.
  destruct (binding upd) as [[c chat]|]; simpl.
  - destruct (decide (c = code)); simpl.
    + by rewrite last_snoc.
    + by rewrite app_nil_r.
  - by rewrite app_nil_r.
Qed.

Lemma processUpdate_linkMap s upd code :
  linkMap (processUpdate s upd) !! code
  = match binding upd with
    | Some (c, chat) =>
        if decide (c = code)
        then (λ rec, mkLink (createdAt rec) (Some chat)) <$> linkMap s !! code
        else linkMap s !! code
    | None => linkMap s !! code
    end.
Proof.
  unfold Server.processUpdate, Server.binding. cbv zeta.
  destruct (extractChatId upd) as [chat|]; [|done].
  destruct (extractStartCode (extractText upd)) as [c|]; [|done].
  destruct (decide (c = ""%string)); [done|].
  destruct (decide (c = code)) as [->|Hne].
  - destruct (linkMap s !! code) as [rec|] eqn:E; simpl; [|by rewrite E].
    by rewrite lookup_insert_eq.
  - destruct (linkMap s !! c) as [rec|]; simpl; [|done].
    by rewrite lookup_insert_ne.
Qed.

End Polling.

Section PollingProperties.

Import Server.

Implicit Types (linkMap : gmap string Link) (rec : Link) (code : string).
Implicit Types (s : State) (upd : Update) (updates : list Update).

Variable toString : Z → string.
Variable extractStartCode : string → option string.

#[local] Abbreviation processUpdate :=
  (Server.processUpdate toString extractStartCode).
#[local] Abbreviation processUpdates :=
  (Server.processUpdates toString extractStartCode).
#[local] Abbreviation pollTelegramUpdates :=
  (Server.pollTelegramUpdates toString extractStartCode).
#[local] Abbreviation binding := (Server.binding toString extractStartCode).
#[local] Abbreviation lastChat := (Server.lastChat toString extractStartCode).
#[local] Abbreviation relinked := (Server.relinked toString extractStartCode).

Lemma processUpdates_lookup updates s code :
  linkMap (processUpdates updates s) !! code
  = relinked code updates <$> linkMap s !! code.
Proof.
  induction updates as [|upd updates IH] using rev_ind.
  - unfold Server.relinked, Server.lastChat. simpl.
    destruct (linkMap s !! code) as [[created chat]|]; done.
  - rewrite processUpdates_snoc, processUpdate_linkMap, IH.
    unfold Server.relinked. rewrite lastChat_snoc.
    destruct (binding upd) as [[c chat]|]; [|done].
    destruct (decide (c = code)); [|done].
    by destruct (linkMap s !! code).
Qed.

(** X16. The loop over a batch of updates never adds or removes a
    code and never changes [createdAt]: a code that was in the table is
    afterwards linked to the chat of the last update of the batch that
    carries a chat id and a start command with that code, and is as
    before when there is none. *)
Theorem processUpdates_links updates s code :
  (linkMap (processUpdates updates s) !! code
   = relinked code updates <$> linkMap s !! code)
  ∧ (is_Some (linkMap (processUpdates updates s) !! code)
     ↔ is_Some (linkMap s !! code))
  ∧ (∀ rec', linkMap (processUpdates updates s) !! code = Some rec' →
             ∃ rec, linkMap s !! code = Some rec
                    ∧ createdAt rec' = createdAt rec
                    ∧ chatId rec'
                      = orElse (lastChat code updates) (chatId rec)).
Proof.
  pose proof (processUpdates_lookup updates s code) as Hlook.
  split_and!; [done| |].
  - rewrite Hlook. by rewrite fmap_is_Some.
  - intros rec' Hrec'. rewrite Hlook in Hrec'.
    destruct (linkMap s !! code) as [rec|]; [|done].
    injection Hrec' as <-. by exists rec.
Qed.

Lemma updatesOffset_processUpdate s upd :
  updatesOffset (processUpdate s upd)
  = match update_id upd with
    | Some n => Z.max (updatesOffset s) (n + 1)
    | None => updatesOffset s
    end.
Proof.
  unfold Server.processUpdate. cbv zeta.
  destruct (extractChatId upd); [|done].
  destruct (extractStartCode (extractText upd)) as [c|]; [|done].
  destruct (decide (c = ""%string)); [done|].
  by destruct (linkMap s !! c).
Qed.

Lemma updatesOffset_processUpdates updates s :
  (updatesOffset s <= updatesOffset (processUpdates updates s))%Z.
Proof.
  induction updates as [|upd updates IH] using rev_ind; [done|].
  rewrite processUpdates_snoc, updatesOffset_processUpdate.
  destruct (update_id upd); lia.
Qed.

(** X17. For a batch whose [update_id]s are integers of magnitude
    below 2^53, where adding one is exact on doubles, and an offset of
    magnitude at most 2^53: after the batch [updatesOffset] has not
    decreased, is above the [update_id] of every update of the batch,
    also of those that link nothing, and is either what it was or one
    more than the [update_id] of an update of the batch. *)
Theorem processUpdates_offset updates s :
  (∀ upd n, upd ∈ updates → update_id upd = Some n → (Z.abs n < 2 ^ 53)%Z) →
  (Z.abs (updatesOffset s) <= 2 ^ 53)%Z →
  let s' := processUpdates updates s in
  (updatesOffset s <= updatesOffset s')%Z
  ∧ (∀ upd n, upd ∈ updates → update_id upd = Some n →
              (n < updatesOffset s')%Z)
  ∧ (updatesOffset s' = updatesOffset s
     ∨ ∃ upd, upd ∈ updates
              ∧ update_id upd = Some (updatesOffset s' - 1)%Z)
  ∧ (Z.abs (updatesOffset s') <= 2 ^ 53)%Z.
Proof.
  intros Hids Hoff.
  induction updates as [|upd updates IH] using rev_ind; simpl.
  - split_and!; [done| |by left|done]. by intros upd n Hin%elem_of_nil.
  - rewrite processUpdates_snoc, updatesOffset_processUpdate.
    assert (∀ u, u ∈ updates → u ∈ updates ++ [upd]) as Hweak
      by (intros u Hu; apply elem_of_app; by left).
    assert (upd ∈ updates ++ [upd]) as Hlast
      by (apply elem_of_app; right; by left).
    destruct IH as (Hle & Habove & Hfrom & Hbound);
      [intros u k Hu; apply Hids; by apply Hweak|].
    set (s1 := processUpdates updates s) in *.
    destruct (update_id upd) as [n|] eqn:Hid.
    + pose proof (Hids upd n Hlast Hid) as Hn.
      split_and!.
      * lia.
      * intros u k [Hu| ->%list_elem_of_singleton]%elem_of_app Hk.
        -- specialize (Habove u k Hu Hk). lia.
        -- assert (k = n) as -> by congruence. lia.
      * destruct (Z.max_spec (updatesOffset s1) (n + 1)) as [[_ ->]|[_ ->]].
        -- right. exists upd. split; [done|]. rewrite Hid. f_equal. lia.
        -- destruct Hfrom as [?|(u & Hu & Hk)]; [by left|].
           right. exists u. split; [by apply Hweak|done].
      * lia.
    + split_and!; [done| | |done].
      * intros u k [Hu| ->%list_elem_of_singleton]%elem_of_app Hk;
          [by apply (Habove u k)|congruence].
      * destruct Hfrom as [?|(u & Hu & Hk)]; [by left|].
        right. exists u. split; [by apply Hweak|done].
Qed.

(** X18. [pollTelegramUpdates] does nothing within 1.2 seconds of the
    last poll. Otherwise, whatever Telegram answers, it adds no code
    and changes no [createdAt]; every record left is at most one hour
    old at the time of the cleanup; a linked code that is still there is
    still linked; and [updatesOffset] has not decreased. *)
Theorem pollTelegramUpdates_safe (now nowCleanup : Z)
  (response : option (list Update)) s :
  let s' := pollTelegramUpdates now nowCleanup response s in
  ((now - lastPollAt s < 1200)%Z → s' = s)
  ∧ (∀ code rec',
        linkMap s' !! code = Some rec' →
        ∃ rec, linkMap s !! code = Some rec
               ∧ createdAt rec' = createdAt rec
               ∧ (is_Some (chatId rec) → is_Some (chatId rec'))
               ∧ ((1200 <= now - lastPollAt s)%Z →
                  (nowCleanup - createdAt rec' <= LINK_TTL_MS)%Z))
  ∧ (updatesOffset s <= updatesOffset s')%Z.
Proof.
  unfold Server.pollTelegramUpdates. cbv zeta.
  destruct (Z.ltb_spec (now - lastPollAt s) 1200) as [Hlt|Hge].
  { split_and!; [done| |done]. intros code rec' Hrec'. exists rec'.
    split_and!; [done..|lia]. }
  split; [lia|].
  set (s1 := mkState (updatesOffset s) now (cleanupLinks nowCleanup (linkMap s))).
  assert (∀ code rec,
            linkMap s1 !! code = Some rec →
            linkMap s !! code = Some rec
            ∧ (nowCleanup - createdAt rec <= LINK_TTL_MS)%Z) as Hclean.
  { intros code rec. simpl. apply cleanupLinks_lookup_Some. }
  destruct response as [updates|].
  - split.
    + intros code rec' Hrec'. rewrite processUpdates_lookup in Hrec'.
      destruct (linkMap s1 !! code) as [rec|] eqn:E; [|done].
      injection Hrec' as <-. destruct (Hclean code rec E) as [Hs Hfresh].
      exists rec. split_and!; [done|done| |done].
      intros [chat Hchat]. unfold Server.relinked. simpl. rewrite Hchat.
      by destruct (lastChat code updates).
    + apply (updatesOffset_processUpdates updates s1).
  - split; [|done]. intros code rec' Hrec'.
    destruct (Hclean code rec' Hrec') as [Hs Hfresh].
    exists rec'. by split_and!.
Qed.

End PollingProperties.

Section PollingWitnesses.

Import Server.

Lemma processUpdates_links_witness :
  let upd := mkUpdate (Some 7%Z)
               (Some (mkMessage (Some 42%Z) (Some "XOAB"%string)))
               None None None in
  let s := mkState 0 0 {[ "XOAB"%string := mkLink 5 None ]} in
  linkMap (processUpdates (λ _, "42"%string) Some [upd] s) !! "XOAB"%string
  = relinked (λ _, "42"%string) Some "XOAB" [upd]
      <$> linkMap s !! "XOAB"%string.
Proof.
  intros upd s.
  exact (proj1 (processUpdates_links (λ _, "42"%string) Some [upd] s "XOAB")).
Defined.

Lemma processUpdates_offset_witness :
  let upd := mkUpdate (Some 7%Z) None None None None in
  let s := mkState 3 0 ∅ in
  (updatesOffset s
   <= updatesOffset (processUpdates (λ _, "42"%string) Some [upd] s))%Z
  ∧ (7 < updatesOffset (processUpdates (λ _, "42"%string) Some [upd] s))%Z.
Proof.
  intros upd s.
  assert (∀ u n, u ∈ [upd] → update_id u = Some n → (Z.abs n < 2 ^ 53)%Z)
    as Hids.
  { intros u n ->%list_elem_of_singleton [= <-]. reflexivity. }
  assert (Z.abs (updatesOffset s) <= 2 ^ 53)%Z as Hoff by (by vm_compute).
  destruct (processUpdates_offset (λ _, "42"%string) Some [upd] s Hids Hoff)
    as (Hle & Habove & _).
  split; [exact Hle|].
  apply (Habove upd 7%Z); [by left|reflexivity].
Defined.

Lemma pollTelegramUpdates_safe_witness :
  let s := mkState 3 1000 {[ "XOAB"%string := mkLink 5 None ]} in
  pollTelegramUpdates (λ _, "42"%string) Some 1500 1500 (Some []) s = s.
Proof.
  intros s.
  apply (proj1 (pollTelegramUpdates_safe (λ _, "42"%string) Some
                  1500 1500 (Some []) s)).
  vm_compute. reflexivity.
Defined.

End PollingWitnesses.

Lemma getBestMove_exactly_maximal_witness :
  ∃ rnd, (0 <= rnd)%Q ∧ (rnd < 1)%Q
         ∧ getBestMove boardBlock O X rnd = MoveIndex 2.
Proof.
  apply (proj2 (getBestMove_exactly_maximal boardBlock O X 2)).
  split; [compute_done|].
  apply Forall_forall. compute_done.
Defined.
